(** * Retail analytics dashboard: the metric rules of [app.py]

    A shallow embedding of the dataframe pipeline of [src/app.py]: the two
    inner joins, the category filter, the three KPIs, the product and
    customer aggregates, the frequency segmentation, the active-days
    tables and the monthly revenue series.

    Tables are lists of records in row order.  Quantities, prices and
    identifiers are integers ([Z]) and sums are exact: the rounding of
    binary floating point and the wrap-around of 64-bit integers are
    outside this model.  A [transactionid] may be NULL ([None]), which
    matters to [count] and [nunique]; the other columns that the script
    reads are taken to be free of NULLs. *)

From Stdlib Require Import ZArith Ascii.
From stdpp Require Import base list gmap sets strings sorting.

Local Open Scope Z_scope.

(** ** Dates and the [transactiondate] column *)

Record Date := { date_year : Z; date_month : Z; date_day : Z }.

(** A timestamp: a calendar date and the nanoseconds since midnight. *)
Record Timestamp := { ts_date : Date; ts_nanos : Z }.

(** A cell of a column that is not of a datetime dtype. *)
Inductive DateCell :=
  | Stamp (t : Timestamp)
  | Text (s : string).

#[global] Instance Date_eq_dec : EqDecision Date.
Proof. solve_decision. Defined.
#[global] Instance Timestamp_eq_dec : EqDecision Timestamp.
Proof. solve_decision. Defined.
#[global] Instance DateCell_eq_dec : EqDecision DateCell.
Proof. solve_decision. Defined.

(** ** The three input tables and the merged table *)

(** The sales table; [D] is the dtype of [transactiondate] ([DateCell] as
    read from the database, [Timestamp] once converted). *)
Module Sales.
Record row (D : Type) := Row {
  transactionid : option Z;
  productid : Z;
  customerid : Z;
  quantitypurchased : Z;
  price : Z;
  transactiondate : D
}.
Arguments Row {D}.
Arguments transactionid {D}.
Arguments productid {D}.
Arguments customerid {D}.
Arguments quantitypurchased {D}.
Arguments price {D}.
Arguments transactiondate {D}.
End Sales.

Module Customers.
Record row := Row {
  customerid : Z;
  age : Z;
  gender : string;
  location : string
}.
End Customers.

Module Inventory.
Record row := Row {
  productid : Z;
  productname : string;
  category : string;
  price : Z
}.
End Inventory.

(** Rows of [pd.merge(sales, inventory, on="productid")].  Both inputs
    have a [price] column, so the merge renames them with its default
    suffixes: [price_x] is the column of the left table ([sales]),
    [price_y] the column of the right table ([inventory]). *)
Module SalesInventory.
Record row := Row {
  transactionid : option Z;
  productid : Z;
  customerid : Z;
  quantitypurchased : Z;
  price_x : Z;
  transactiondate : DateCell;
  productname : string;
  category : string;
  price_y : Z
}.
End SalesInventory.

(** Rows of the second merge, with [customers] on [customerid]. *)
Module Merged.
Record row := Row {
  transactionid : option Z;
  productid : Z;
  customerid : Z;
  quantitypurchased : Z;
  price_x : Z;
  transactiondate : DateCell;
  productname : string;
  category : string;
  price_y : Z;
  age : Z;
  gender : string;
  location : string
}.
End Merged.

(** ** Dataframe primitives *)

(** [Series.sum()]: the sum of an empty series is 0. *)
Definition Zsum (l : list Z) : Z := foldr Z.add 0 l.

Section primitives.
Context {K : Type} `{EqDecision K}.

(** [Series.unique()]: one pass that keeps the first occurrence of each
    value, remembering the values met so far. *)
Fixpoint unique_from (seen : list K) (l : list K) : list K :=
  match l with
  | [] => []
  | x :: l' =>
      if decide (x ∈ seen) then unique_from seen l'
      else x :: unique_from (x :: seen) l'
  end.

Definition unique (l : list K) : list K := unique_from [] l.

(** [Series.nunique()], of a column without NULL cells; on a column that
    may hold NULLs the script's calls drop them first, see [dropna]. *)
Definition nunique (l : list K) : nat := length (unique l).

(** The cells of a column that are not NULL. *)
Definition dropna (column : list (option K)) : list K := omap id column.

(** [Series.count()], also the ["count"] of [agg]: the number of cells
    that are not NULL. *)
Definition count (column : list (option K)) : nat := length (dropna column).

(** [pd.merge(left, right, on=key)], an inner join: every left row, in
    order, is paired with every right row that has the same key;
    [combine] builds the output row (and applies the suffixes). *)
Definition merge {L R O : Type} (lkey : L → K) (rkey : R → K)
    (combine : L → R → O) (left : list L) (right : list R) : list O :=
  l ← left; combine l <$> filter (λ r, rkey r = lkey l) right.

(** [df.groupby(key)] with its default [sort=True]: the distinct keys in
    ascending order, each with its rows in their original order. *)
Definition groupby {A : Type} (le : relation K) `{∀ x y, Decision (le x y)}
    (key : A → K) (rows : list A) : list (K * list A) :=
  (λ k, (k, filter (λ a, key a = k) rows)) <$> merge_sort le (unique (key <$> rows)).
End primitives.

(** ** Lines 55-57: the merged table *)

Definition with_inventory (s : Sales.row DateCell) (p : Inventory.row) : SalesInventory.row :=
  {| SalesInventory.transactionid := Sales.transactionid s;
     SalesInventory.productid := Sales.productid s;
     SalesInventory.customerid := Sales.customerid s;
     SalesInventory.quantitypurchased := Sales.quantitypurchased s;
     SalesInventory.price_x := Sales.price s;
     SalesInventory.transactiondate := Sales.transactiondate s;
     SalesInventory.productname := Inventory.productname p;
     SalesInventory.category := Inventory.category p;
     SalesInventory.price_y := Inventory.price p |}.

Definition with_customer (m : SalesInventory.row) (c : Customers.row) : Merged.row :=
  {| Merged.transactionid := SalesInventory.transactionid m;
     Merged.productid := SalesInventory.productid m;
     Merged.customerid := SalesInventory.customerid m;
     Merged.quantitypurchased := SalesInventory.quantitypurchased m;
     Merged.price_x := SalesInventory.price_x m;
     Merged.transactiondate := SalesInventory.transactiondate m;
     Merged.productname := SalesInventory.productname m;
     Merged.category := SalesInventory.category m;
     Merged.price_y := SalesInventory.price_y m;
     Merged.age := Customers.age c;
     Merged.gender := Customers.gender c;
     Merged.location := Customers.location c |}.

Section dashboard.
Variable sales : list (Sales.row DateCell).
Variable customers : list Customers.row.
Variable inventory : list Inventory.row.
Variable category_filter : list string.

(** Lines 55 and 56. *)
Definition joined : list Merged.row :=
  merge SalesInventory.customerid Customers.customerid with_customer
    (merge Sales.productid Inventory.productid with_inventory sales inventory)
    customers.

(** Line 57: [merged[merged["category"].isin(category_filter)]]. *)
Definition merged : list Merged.row :=
  filter (λ m, Merged.category m ∈ category_filter) joined.

(** Lines 61-63: the KPIs. *)
Definition total_revenue : Z :=
  Zsum ((λ m, Merged.quantitypurchased m * Merged.price_x m) <$> merged).

Definition total_orders : nat := nunique (dropna (Merged.transactionid <$> merged)).

Definition total_customers : nat := nunique (Merged.customerid <$> merged).
End dashboard.

(** ** Lines 71-81: product performance *)

Module ProductPerf.
Record row := Row {
  productname : string;
  total_units_sold : Z;
  total_revenue : Z
}.
End ProductPerf.

#[global] Instance ProductPerf_eq_dec : EqDecision ProductPerf.row.
Proof. solve_decision. Defined.

(** [merged.groupby("productname").agg(...).reset_index()]; the lambda of
    line 73 multiplies the group's [price_x] cells with the
    [quantitypurchased] cells of the same rows. *)
Definition product_perf (merged : list Merged.row) : list ProductPerf.row :=
  (λ '(name, g),
     {| ProductPerf.productname := name;
        ProductPerf.total_units_sold := Zsum (Merged.quantitypurchased <$> g);
        ProductPerf.total_revenue :=
          Zsum ((λ m, Merged.price_x m * Merged.quantitypurchased m) <$> g) |})
  <$> groupby String.le Merged.productname merged.

(** [df.iloc[indexer]]: the rows at the given positions, in that order.
    The positions that [argsort] returns are always in range. *)
Definition iloc {A : Type} (rows : list A) (indexer : list nat) : list A :=
  omap (λ i, rows !! i) indexer.

(** What the library promises of [ndarray.argsort(kind="quicksort")], the
    kind that [sort_values] uses when none is given: the positions of the
    array, permuted so that the values read in that order never decrease.
    The order of equal values is left to the algorithm. *)
Definition argsort_spec (argsort : list Z → list nat) : Prop :=
  ∀ v, argsort v ≡ₚ seq 0 (length v) ∧ Sorted Z.le (iloc v (argsort v)).

Section sort_values.
(** The sorting kernel of the array library. *)
Variable argsort : list Z → list nat.

(** [pandas.core.sorting.nargsort] on a column without missing values:
    for a descending sort the column and its positions are reversed, the
    kernel is run, and the result is reversed again. *)
Definition nargsort (ascending : bool) (items : list Z) : list nat :=
  let idx := seq 0 (length items) in
  if ascending then iloc idx (argsort items)
  else reverse (iloc (reverse idx) (argsort (reverse items))).

(** [product_perf.sort_values("total_units_sold", ascending=...)]. *)
Definition sort_values (ascending : bool) (rows : list ProductPerf.row)
    : list ProductPerf.row :=
  iloc rows (nargsort ascending (ProductPerf.total_units_sold <$> rows)).

(** Lines 77 and 80: the two charts. *)
Definition top10 (rows : list ProductPerf.row) : list ProductPerf.row :=
  take 10 (sort_values false rows).

Definition bottom10 (rows : list ProductPerf.row) : list ProductPerf.row :=
  take 10 (sort_values true rows).
End sort_values.

(** Two kernels that meet [argsort_spec], both insertion sorts of the
    positions, taken from the last to the first.  [argsort_insertion]
    puts a position before the first one placed whose value is not
    smaller, so equal values stay in input order; [argsort_rev_ties] puts
    it before the first one whose value is strictly larger, so equal
    values end in the reverse of their input order. *)
Fixpoint insert_by (v : list Z) (strict : bool) (i : nat) (l : list nat) : list nat :=
  match l with
  | [] => [i]
  | j :: l' =>
      let vi := default 0 (v !! i) in
      let vj := default 0 (v !! j) in
      if (if strict then bool_decide (vi < vj) else bool_decide (vi ≤ vj))
      then i :: j :: l'
      else j :: insert_by v strict i l'
  end.

Definition argsort_insertion (v : list Z) : list nat :=
  foldr (insert_by v false) [] (seq 0 (length v)).

Definition argsort_rev_ties (v : list Z) : list nat :=
  foldr (insert_by v true) [] (seq 0 (length v)).

(** *** The sort that [sort_values] runs

    [sort_values] is called without [kind], so pandas asks numpy for
    [kind="quicksort"], which numpy documents as not stable.  Its
    portable routine for an integer column is [aquicksort_] of
    [npysort/quicksort.cpp] (on some processors a build of numpy runs a
    vectorised routine in its place, which is not stable either): an
    introsort over the array [tosort] of positions, which partitions a
    range while it has more than [SMALL_QUICKSORT + 1] cells, hands a
    range over to the heap sort [aheapsort_] once [cdepth] partitions
    have been nested, and finishes every range by insertion.  Pointers
    into [tosort] are offsets here, and every loop carries the length
    of the array as its fuel, which none of them uses up. *)
Definition SMALL_QUICKSORT : nat := 16.

Definition npy_get_msb (num : nat) : Z := Z.log2 (Z.of_nat num).

Section aquicksort.
Variable v : list Z.

(** [v[*p]] and [*p], for a pointer [p] into [tosort]. *)
Definition deref (tosort : list nat) (p : nat) : nat := default 0%nat (tosort !! p).

Definition value (tosort : list nat) (p : nat) : Z := default 0 (v !! deref tosort p).

Definition INTP_SWAP (p q : nat) (tosort : list nat) : list nat :=
  <[p := deref tosort q]> (<[q := deref tosort p]> tosort).

(** [do ++pi; while (v[*pi] < vp)] and [do --pj; while (vp < v[*pj])]. *)
Fixpoint scan_up (fuel : nat) (tosort : list nat) (vp : Z) (pi : nat) : nat :=
  match fuel with
  | O => S pi
  | S fuel =>
      if decide (value tosort (S pi) < vp) then scan_up fuel tosort vp (S pi) else S pi
  end.

Fixpoint scan_down (fuel : nat) (tosort : list nat) (vp : Z) (pj : nat) : nat :=
  match fuel with
  | O => pred pj
  | S fuel =>
      if decide (vp < value tosort (pred pj)) then scan_down fuel tosort vp (pred pj)
      else pred pj
  end.

(** The [for (;;)] loop of the partition: it ends with [pi >= pj]. *)
Fixpoint partition (fuel : nat) (tosort : list nat) (vp : Z) (pi pj : nat)
    : list nat * nat :=
  match fuel with
  | O => (tosort, pi)
  | S fuel =>
      let pi := scan_up (length tosort) tosort vp pi in
      let pj := scan_down (length tosort) tosort vp pj in
      if decide (pj ≤ pi)%nat then (tosort, pi)
      else partition fuel (INTP_SWAP pi pj tosort) vp pi pj
  end.

(** The three conditional swaps that leave the median of the first,
    the middle and the last value in the middle. *)
Definition median_of_3 (tosort : list nat) (pl pm pr : nat) : list nat :=
  let tosort :=
    if decide (value tosort pm < value tosort pl) then INTP_SWAP pm pl tosort else tosort in
  let tosort :=
    if decide (value tosort pr < value tosort pm) then INTP_SWAP pr pm tosort else tosort in
  if decide (value tosort pm < value tosort pl) then INTP_SWAP pm pl tosort else tosort.

(** A frame of the stack: the bounds of a range and its depth. *)
Definition frame : Type := nat * nat * Z.

(** [while ((pr - pl) > SMALL_QUICKSORT)]: partition, push the larger
    part and go on with the smaller one. *)
Fixpoint partition_loop (fuel : nat) (tosort : list nat) (pl pr : nat)
    (stack : list frame) (cdepth : Z) : list nat * nat * nat * list frame :=
  match fuel with
  | O => (tosort, pl, pr, stack)
  | S fuel =>
      if decide (SMALL_QUICKSORT < pr - pl)%nat then
        let pm := (pl + Nat.div2 (pr - pl))%nat in
        let tosort := median_of_3 tosort pl pm pr in
        let vp := value tosort pm in
        let tosort := INTP_SWAP pm (pr - 1) tosort in
        let '(tosort, pi) := partition (length tosort) tosort vp pl (pr - 1) in
        let tosort := INTP_SWAP pi (pr - 1) tosort in
        if decide (pi - pl < pr - pi)%nat
        then partition_loop fuel tosort pl (pi - 1)
               ((S pi, pr, cdepth - 1) :: stack) (cdepth - 1)
        else partition_loop fuel tosort (S pi) pr
               ((pl, (pi - 1)%nat, cdepth - 1) :: stack) (cdepth - 1)
      else (tosort, pl, pr, stack)
  end.

(** The insertion sort of the range from [pl] to [pr]: a position moves
    down past the positions whose value is strictly larger. *)
Fixpoint shift_up (fuel : nat) (tosort : list nat) (pl : nat) (vp : Z) (pj : nat)
    : list nat * nat :=
  match fuel with
  | O => (tosort, pj)
  | S fuel =>
      if decide ((pl < pj)%nat ∧ vp < value tosort (pred pj))
      then shift_up fuel (<[pj := deref tosort (pred pj)]> tosort) pl vp (pred pj)
      else (tosort, pj)
  end.

Definition insert_at (pl : nat) (tosort : list nat) (pi : nat) : list nat :=
  let vi := deref tosort pi in
  let '(tosort, pj) := shift_up (length tosort) tosort pl (default 0 (v !! vi)) pi in
  <[pj := vi]> tosort.

Definition insertion_sort (tosort : list nat) (pl pr : nat) : list nat :=
  foldl (insert_at pl) tosort (seq (S pl) (pr - pl)).

(** [aheapsort_] of [npysort/heapsort.cpp], on an array [a] of [n]
    positions; the heap is indexed from 1, so [a[k]] is cell [k - 1]. *)
Fixpoint sift_down (fuel : nat) (a : list nat) (n tmp i j : nat) : list nat :=
  match fuel with
  | O => <[(i - 1)%nat := tmp]> a
  | S fuel =>
      if decide (j ≤ n)%nat then
        let j := if decide ((j < n)%nat ∧ value a (j - 1) < value a j) then S j else j in
        if decide (default 0 (v !! tmp) < value a (j - 1))
        then sift_down fuel (<[(i - 1)%nat := deref a (j - 1)]> a) n tmp j (j + j)
        else <[(i - 1)%nat := tmp]> a
      else <[(i - 1)%nat := tmp]> a
  end.

Definition aheapsort_ (a : list nat) : list nat :=
  let n := length a in
  let heap := foldl (λ a l, sift_down n a n (deref a (l - 1)) l (l + l)) a
                (reverse (seq 1 (Nat.div2 n))) in
  foldl (λ a n, sift_down n (<[(n - 1)%nat := deref a 0]> a) (n - 1) (deref a (n - 1)) 1 2)
    heap (reverse (seq 2 (n - 1))).

(** [aheapsort_<Tag>(vv, pl, pr - pl + 1)]. *)
Definition aheapsort_range (tosort : list nat) (pl pr : nat) : list nat :=
  take pl tosort ++ aheapsort_ (take (S pr - pl) (drop pl tosort)) ++ drop (S pr) tosort.

(** The [while (1)] loop: sort the range at hand, then pop the next. *)
Fixpoint aquicksort_loop (fuel : nat) (tosort : list nat) (pl pr : nat)
    (stack : list frame) (cdepth : Z) : list nat :=
  match fuel with
  | O => tosort
  | S fuel =>
      let '(tosort, stack) :=
        if decide (cdepth < 0) then (aheapsort_range tosort pl pr, stack)
        else
          let '(tosort, pl, pr, stack) :=
            partition_loop (length tosort) tosort pl pr stack cdepth in
          (insertion_sort tosort pl pr, stack) in
      match stack with
      | [] => tosort
      | (pl, pr, cdepth) :: stack => aquicksort_loop fuel tosort pl pr stack cdepth
      end
  end.

Definition aquicksort_ (tosort : list nat) : list nat :=
  let num := length tosort in
  aquicksort_loop (S num) tosort 0 (num - 1) [] (npy_get_msb num * 2).
End aquicksort.

(** [v.argsort(kind="quicksort")]: the positions [0 .. n-1], sorted. *)
Definition argsort_quicksort (v : list Z) : list nat :=
  aquicksort_ v (seq 0 (length v)).

(** ** Lines 85-91: the customer aggregate *)

Module CustSeg.
Record row := Row {
  customerid : Z;
  total_orders : nat;
  total_spent : Z;
  age : Z;
  gender : string;
  location : string
}.
End CustSeg.

(** [count] is the number of [transactionid] cells of the group that are
    not NULL, [first] reads the first row of the group; a group is never
    empty. *)
Definition cust_seg (merged : list Merged.row) : list CustSeg.row :=
  omap (λ '(c, g),
     m ← head g;
     Some {| CustSeg.customerid := c;
             CustSeg.total_orders := count (Merged.transactionid <$> g);
             CustSeg.total_spent :=
               Zsum ((λ m, Merged.price_x m * Merged.quantitypurchased m) <$> g);
             CustSeg.age := Merged.age m;
             CustSeg.gender := Merged.gender m;
             CustSeg.location := Merged.location m |})
  (groupby Z.le Merged.customerid merged).

(** ** Lines 100-108: segments by frequency *)

(** The lambda of lines 105-107. *)
Definition customer_segment (x : Z) : string :=
  if decide (x = 0) then "Inactive"
  else if decide (x ≤ 5) then "Low"
  else if decide (x ≤ 7) then "Medium"
  else "High".

Module Segments.
Record row := Row {
  customerid : Z;
  total_orders : Z;
  customer_segment : string
}.
End Segments.

#[global] Instance Segments_eq_dec : EqDecision Segments.row.
Proof. solve_decision. Defined.

Definition customer_segments {D : Type} (sales : list (Sales.row D)) : list Segments.row :=
  (λ '(c, g),
     let n := Z.of_nat (count (Sales.transactionid <$> g)) in
     {| Segments.customerid := c;
        Segments.total_orders := n;
        Segments.customer_segment := customer_segment n |})
  <$> groupby Z.le Sales.customerid sales.

(** ** The dtype of [transactiondate] *)

Definition set_transactiondate {D E : Type} (s : Sales.row D) (d : E) : Sales.row E :=
  {| Sales.transactionid := Sales.transactionid s;
     Sales.productid := Sales.productid s;
     Sales.customerid := Sales.customerid s;
     Sales.quantitypurchased := Sales.quantitypurchased s;
     Sales.price := Sales.price s;
     Sales.transactiondate := d |}.

(** The [.dt] accessor exists only on a column of datetime dtype; on any
    other column it raises, which is [None] here. *)
Definition dt (sales : list (Sales.row DateCell)) : option (list (Sales.row Timestamp)) :=
  mapM (λ s, match Sales.transactiondate s with
             | Stamp t => Some (set_transactiondate s t)
             | Text _ => None
             end) sales.

Section to_datetime.
(** The date parser of the library, for the cells that are text. *)
Variable parse : string → option Timestamp.

(** [pd.to_datetime(column)]: timestamps are kept, text is parsed, and
    one cell that does not parse fails the whole conversion. *)
Definition to_datetime (sales : list (Sales.row DateCell))
    : option (list (Sales.row Timestamp)) :=
  mapM (λ s, t ← match Sales.transactiondate s with
                 | Stamp t => Some t
                 | Text x => parse x
                 end;
             Some (set_transactiondate s t)) sales.
End to_datetime.

(** [x.dt.date.nunique()] on the [transactiondate] cells of a group. *)
Definition date_nunique (g : list (Sales.row Timestamp)) : nat :=
  nunique ((λ r, ts_date (Sales.transactiondate r)) <$> g).

(** ** Lines 124-128: repeat customers *)

Module ActiveDays.
Record row := Row { customerid : Z; active_days : nat }.
End ActiveDays.

#[global] Instance ActiveDays_eq_dec : EqDecision ActiveDays.row.
Proof. solve_decision. Defined.

(** Lines 124-126, before the filter. *)
Definition active_days_table (sales : list (Sales.row DateCell)) : option (list ActiveDays.row) :=
  s ← dt sales;
  Some ((λ '(c, g), {| ActiveDays.customerid := c; ActiveDays.active_days := date_nunique g |})
        <$> groupby Z.le Sales.customerid s).

(** Line 128. *)
Definition repeat_customers (sales : list (Sales.row DateCell)) : option (list ActiveDays.row) :=
  t ← active_days_table sales;
  Some (filter (λ r, (1 < ActiveDays.active_days r)%nat) t).

(** ** Lines 141-146: the loyalty table *)

Module Loyalty.
Record row := Row { customerid : Z; days_active : nat; total_orders : nat }.
End Loyalty.

(** The script calls this table [repeat]. *)
Definition loyalty_repeat (parse : string → option Timestamp)
    (sales : list (Sales.row DateCell)) : option (list Loyalty.row) :=
  loyalty_df ← to_datetime parse sales;
  Some ((λ '(c, g), {| Loyalty.customerid := c;
                       Loyalty.days_active := date_nunique g;
                       Loyalty.total_orders := count (Sales.transactionid <$> g) |})
        <$> groupby Z.le Sales.customerid loyalty_df).

(** ** Lines 155-163: monthly revenue *)

Definition digit (n : Z) : ascii :=
  match n `mod` 10 with
  | 0 => "0" | 1 => "1" | 2 => "2" | 3 => "3" | 4 => "4"
  | 5 => "5" | 6 => "6" | 7 => "7" | 8 => "8" | _ => "9"
  end%char.

(** [str] of a monthly period: the year on four digits, a dash, the month
    on two digits. *)
Definition month_str (d : Date) : string :=
  String (digit (date_year d `div` 1000)) (String (digit (date_year d `div` 100))
  (String (digit (date_year d `div` 10)) (String (digit (date_year d))
  (String "-" (String (digit (date_month d `div` 10)) (String (digit (date_month d)) "")))))).

(** Line 158: [sales["transactiondate"].dt.to_period("M").astype(str)]. *)
Definition month (r : Sales.row Timestamp) : string :=
  month_str (ts_date (Sales.transactiondate r)).

Module Monthly.
Record row := Row { month : string; monthly_revenue : Z }.
End Monthly.

#[global] Instance Monthly_eq_dec : EqDecision Monthly.row.
Proof. solve_decision. Defined.

(** On a table without rows there is no group: [apply] then gives back an
    empty frame, not a series, and [reset_index(name=...)] raises. *)
Definition monthly (parse : string → option Timestamp)
    (sales : list (Sales.row DateCell)) : option (list Monthly.row) :=
  s ← to_datetime parse sales;
  match s with
  | [] => None
  | _ :: _ =>
      Some ((λ '(k, g),
               {| Monthly.month := k;
                  Monthly.monthly_revenue :=
                    Zsum ((λ x, Sales.quantitypurchased x * Sales.price x) <$> g) |})
            <$> groupby String.le month s)
  end.

(** ** Lines 48-52: the category filter *)

(** [inventory["category"].unique()]: the options of the multiselect and
    also its default selection. *)
Definition category_options (inventory : list Inventory.row) : list string :=
  unique (Inventory.category <$> inventory).

(** ** Lines 115-116: the size of each segment *)

Module SegmentCounts.
Record row := Row { Segment : string; Count : Z }.
End SegmentCounts.

#[global] Instance SegmentCounts_eq_dec : EqDecision SegmentCounts.row.
Proof. solve_decision. Defined.

(** [Series.value_counts()]: the distinct values with the number of their
    occurrences, put in descending order of that number by
    [Series.sort_values(ascending=False)], which runs [nargsort] with the
    same default kernel as the sort of the product table. *)
Definition value_counts (argsort : list Z → list nat) (column : list string)
    : list (string * Z) :=
  let keys := unique column in
  let counts := (λ k, Z.of_nat (length (filter (λ x, x = k) column))) <$> keys in
  iloc (zip keys counts) (nargsort argsort false counts).

Definition segment_counts (argsort : list Z → list nat)
    (customer_segments : list Segments.row) : list SegmentCounts.row :=
  (λ '(k, n), {| SegmentCounts.Segment := k; SegmentCounts.Count := n |})
  <$> value_counts argsort (Segments.customer_segment <$> customer_segments).

(** ** Lines 21-27: the database URL *)

(** The characters that [urllib.parse.quote] never escapes: letters,
    digits and the four marks of [_.-~]. *)
Definition always_safe (c : ascii) : bool :=
  let n := N_of_ascii c in
  ((65 <=? n) && (n <=? 90) || (97 <=? n) && (n <=? 122) ||
   (48 <=? n) && (n <=? 57) ||
   (n =? 95) || (n =? 46) || (n =? 45) || (n =? 126))%N.

(** One hexadecimal digit, in upper case as ["%02X"] prints it. *)
Definition hex_digit (n : N) : ascii :=
  match n with
  | 0 => "0" | 1 => "1" | 2 => "2" | 3 => "3" | 4 => "4" | 5 => "5"
  | 6 => "6" | 7 => "7" | 8 => "8" | 9 => "9" | 10 => "A" | 11 => "B"
  | 12 => "C" | 13 => "D" | 14 => "E" | _ => "F"
  end%N%char.

(** What [quote_plus] writes for one byte of the UTF-8 text: the byte
    itself when it is always safe, a plus sign for a space, and a
    percent sign with the two hexadecimal digits of the byte otherwise. *)
Definition quote_byte (c : ascii) : string :=
  if always_safe c then String c ""
  else if Ascii.eqb c " " then "+"
  else String "%" (String (hex_digit (N_of_ascii c / 16))
                     (String (hex_digit (N_of_ascii c `mod` 16)) "")).

(** [urllib.parse.quote_plus(string)] with its default [safe=""], on
    the bytes of the UTF-8 encoding of the text: a [string] is a
    sequence of bytes here, so its length is a number of bytes, not of
    characters. *)
Fixpoint quote_plus (s : string) : string :=
  match s with
  | "" => ""
  | String c s' => quote_byte c +:+ quote_plus s'
  end.





(** The value of a hexadecimal digit, and the reading of an escaped text;
    the script has no such reader, it serves to state that nothing is
    lost in [quote_plus]. *)
Definition hex_value (c : ascii) : N :=
  let n := N_of_ascii c in
  (if (48 <=? n) && (n <=? 57) then n - 48
   else if (65 <=? n) && (n <=? 70) then n - 55
   else 0)%N.

Fixpoint unquote_plus (s : string) : string :=
  match s with
  | "" => ""
  | String "%" (String h (String l s')) =>
      String (ascii_of_N (16 * hex_value h + hex_value l)) (unquote_plus s')
  | String "+" s' => String " " (unquote_plus s')
  | String c s' => String c (unquote_plus s')
  end.

(** ** The script, top to bottom *)

(** What one run of the script shows.  The script stops at the first
    step that raises, so a run gives a report only when all of them
    succeed; the table named [repeat] in the script is [loyalty] here. *)
Module Report.
Record t := Make {
  total_revenue : Z;
  total_orders : nat;
  total_customers : nat;
  top10 : list ProductPerf.row;
  bottom10 : list ProductPerf.row;
  cust_seg : list CustSeg.row;
  customer_segments : list Segments.row;
  repeat_customers : list ActiveDays.row;
  loyalty : list Loyalty.row;
  monthly : list Monthly.row
}.
End Report.

Definition dashboard (argsort : list Z → list nat) (parse : string → option Timestamp)
    (sales : list (Sales.row DateCell)) (customers : list Customers.row)
    (inventory : list Inventory.row) (category_filter : list string) : option Report.t :=
  let m := merged sales customers inventory category_filter in
  let perf := product_perf m in
  repeat_customers_table ← repeat_customers sales;
  loyalty_table ← loyalty_repeat parse sales;
  monthly_table ← monthly parse sales;
  Some {| Report.total_revenue := total_revenue sales customers inventory category_filter;
          Report.total_orders := total_orders sales customers inventory category_filter;
          Report.total_customers := total_customers sales customers inventory category_filter;
          Report.top10 := top10 argsort perf;
          Report.bottom10 := bottom10 argsort perf;
          Report.cust_seg := cust_seg m;
          Report.customer_segments := customer_segments sales;
          Report.repeat_customers := repeat_customers_table;
          Report.loyalty := loyalty_table;
          Report.monthly := monthly_table |}.

(** The column is of datetime dtype when every cell is a timestamp. *)
Definition datetime_dtype (sales : list (Sales.row DateCell)) : Prop :=
  Forall (λ r, ∃ t, Sales.transactiondate r = Stamp t) sales.

(** The sales table with its timestamps seen as cells again. *)
Definition as_cells (s : list (Sales.row Timestamp)) : list (Sales.row DateCell) :=
  (λ r, set_transactiondate r (Stamp (Sales.transactiondate r))) <$> s.

(** The customer has a sale on that calendar date. *)
Definition bought_on (sales : list (Sales.row DateCell)) (c : Z) (d : Date) : Prop :=
  ∃ r t, r ∈ sales ∧ Sales.customerid r = c ∧
         Sales.transactiondate r = Stamp t ∧ ts_date t = d.

(** A date that a nanosecond timestamp can hold has a year of four
    digits (1677 to 2262) and a month from 1 to 12. *)
Definition valid_date (d : Date) : Prop :=
  0 ≤ date_year d ≤ 9999 ∧ 1 ≤ date_month d ≤ 12.

(** Months counted from year 0: the chronological rank of a bucket. *)
Definition month_index (d : Date) : Z := 12 * date_year d + date_month d.

(** The calendar date of a converted sale. *)
Definition sale_date (r : Sales.row Timestamp) : Date := ts_date (Sales.transactiondate r).

(** The number of merged rows that one sale yields among the products
    that satisfy [Q]: its matching products with [Q] times its matching
    customers. *)
Definition matches (Q : Inventory.row → Prop) `{∀ p, Decision (Q p)}
    (customers : list Customers.row) (inventory : list Inventory.row)
    (s : Sales.row DateCell) : nat :=
  (length (filter (λ p, Inventory.productid p = Sales.productid s ∧ Q p) inventory) *
   length (filter (λ c, Customers.customerid c = Sales.customerid s) customers))%nat.

(** Ties are broken by input order: of two rows of the chart [out]
    with equal units, the one shown first comes first in [rows]. *)
Definition ties_in_input_order (rows out : list ProductPerf.row) : Prop :=
  ∀ i j a b, (i < j)%nat → out !! i = Some a → out !! j = Some b →
    ProductPerf.total_units_sold a = ProductPerf.total_units_sold b →
    ∃ i' j', (i' < j')%nat ∧ rows !! i' = Some a ∧ rows !! j' = Some b.

(** ** Sample tables *)

Definition on_day (y m d : Z) : DateCell :=
  Stamp {| ts_date := {| date_year := y; date_month := m; date_day := d |}; ts_nanos := 0 |}.

(** Two sales of product 100 to customer 7 in March 2024; the catalogue
    lists the product at 7 while it was sold at 10 and at 5. *)
Definition march_sales : list (Sales.row DateCell) :=
  [ Sales.Row (Some 1) 100 7 2 10 (on_day 2024 3 5);
    Sales.Row (Some 2) 100 7 1 5 (on_day 2024 3 28) ].

Definition one_customer : list Customers.row := [ Customers.Row 7 30 "F" "Pune" ].

Definition one_product : list Inventory.row := [ Inventory.Row 100 "widget" "tools" 7 ].

(** Two sales, the first without a [transactionid]. *)
Definition null_id_sales : list (Sales.row DateCell) :=
  [ Sales.Row None 100 7 1 10 (on_day 2024 3 5);
    Sales.Row (Some 2) 100 8 1 5 (on_day 2024 3 6) ].

(** A sale of a product that the inventory does not list. *)
Definition stray_sale : Sales.row DateCell :=
  Sales.Row (Some 3) 999 7 4 2 (on_day 2024 4 1).

(** [march_sales] after the [.dt] accessor. *)
Definition march_stamps : list (Sales.row Timestamp) :=
  [ Sales.Row (Some 1) 100 7 2 10 {| ts_date := {| date_year := 2024; date_month := 3; date_day := 5 |}; ts_nanos := 0 |};
    Sales.Row (Some 2) 100 7 1 5 {| ts_date := {| date_year := 2024; date_month := 3; date_day := 28 |}; ts_nanos := 0 |} ].

(** Three products with 5, 10 and 3 units sold. *)
Definition three_products : list ProductPerf.row :=
  [ ProductPerf.Row "anvil" 5 50; ProductPerf.Row "bolt" 10 20; ProductPerf.Row "clamp" 3 90 ].

(** Two products with the same number of units sold. *)
Definition tied_products : list ProductPerf.row :=
  [ ProductPerf.Row "anvil" 5 50; ProductPerf.Row "bolt" 5 20 ].

(** A product table of twenty rows, as [product_perf] gives it, in the
    order of the names; the units sold go 3, 1, 2, 3, 1, 2, ... *)
Definition twenty_products : list ProductPerf.row :=
  [ ProductPerf.Row "p01" 3 30; ProductPerf.Row "p02" 1 10; ProductPerf.Row "p03" 2 20;
    ProductPerf.Row "p04" 3 30; ProductPerf.Row "p05" 1 10; ProductPerf.Row "p06" 2 20;
    ProductPerf.Row "p07" 3 30; ProductPerf.Row "p08" 1 10; ProductPerf.Row "p09" 2 20;
    ProductPerf.Row "p10" 3 30; ProductPerf.Row "p11" 1 10; ProductPerf.Row "p12" 2 20;
    ProductPerf.Row "p13" 3 30; ProductPerf.Row "p14" 1 10; ProductPerf.Row "p15" 2 20;
    ProductPerf.Row "p16" 3 30; ProductPerf.Row "p17" 1 10; ProductPerf.Row "p18" 2 20;
    ProductPerf.Row "p19" 3 30; ProductPerf.Row "p20" 1 10 ].

(** A sales table as a driver may hand it over, its dates as text, and a
    parser that reads every text as the same instant. *)
Definition text_sales : list (Sales.row DateCell) :=
  [ Sales.Row (Some 1) 100 7 2 10 (Text "2024-03-05") ].

Definition parse_any : string → option Timestamp :=
  λ _, Some {| ts_date := {| date_year := 2024; date_month := 3; date_day := 5 |};
               ts_nanos := 0 |}.




(** A parser that accepts no text; the sample tables hold timestamps. *)
Definition no_parse : string → option Timestamp := λ _, None.

(** * Properties *)

(** ** The primitives *)

Section primitives_facts.
Context {K : Type} `{EqDecision K}.
Implicit Types (l seen : list K).

Lemma elem_of_unique_from seen l x :
  x ∈ unique_from seen l ↔ x ∈ l ∧ x ∉ seen.
Proof.
  revert seen. induction l as [|y l IH]; intros seen; simpl.
  - set_solver.
  - destruct (decide (y ∈ seen)) as [Hy|Hy].
    + rewrite IH. set_solver.
    + rewrite elem_of_cons, IH. destruct (decide (x = y)); set_solver.
Qed.

Lemma NoDup_unique_from seen l : NoDup (unique_from seen l).
Proof.
  revert seen. induction l as [|y l IH]; intros seen; simpl.
  - constructor.
  - destruct (decide (y ∈ seen)); [apply IH|].
    constructor; [|apply IH].
    rewrite elem_of_unique_from. set_solver.
Qed.

Lemma elem_of_unique l x : x ∈ unique l ↔ x ∈ l.
Proof. unfold unique. rewrite elem_of_unique_from. set_solver. Qed.

Lemma NoDup_unique l : NoDup (unique l).
Proof. apply NoDup_unique_from. Qed.

Lemma elem_of_merge {L R O : Type} (lkey : L → K) (rkey : R → K)
    (combine : L → R → O) (left : list L) (right : list R) (o : O) :
  o ∈ merge lkey rkey combine left right ↔
  ∃ a b, a ∈ left ∧ b ∈ right ∧ rkey b = lkey a ∧ o = combine a b.
Proof.
  unfold merge. rewrite list_elem_of_bind. split.
  - intros (l & Ho & Hl). apply list_elem_of_fmap in Ho as (r & -> & Hr).
    apply list_elem_of_filter in Hr as [Hk Hr]. eauto 10.
  - intros (l & r & Hl & Hr & Hk & ->). exists l. split; [|done].
    apply list_elem_of_fmap. exists r. split; [done|].
    by apply list_elem_of_filter.
Qed.

Lemma merge_app {L R O : Type} (lkey : L → K) (rkey : R → K)
    (combine : L → R → O) (l1 l2 : list L) (right : list R) :
  merge lkey rkey combine (l1 ++ l2) right =
  merge lkey rkey combine l1 right ++ merge lkey rkey combine l2 right.
Proof. unfold merge. apply bind_app. Qed.

End primitives_facts.

(** [nunique] is the cardinal of the set of the values. *)
Lemma nunique_size {K : Type} `{Countable K} (l : list K) :
  nunique l = size (list_to_set l : gset K).
Proof.
  unfold nunique.
  rewrite <- (size_list_to_set (C := gset K) (unique l)) by apply NoDup_unique.
  f_equal. apply set_eq. intros x.
  rewrite !elem_of_list_to_set. apply elem_of_unique.
Qed.

Lemma filter_none {A : Type} (P : A → Prop) `{∀ x, Decision (P x)} (l : list A) :
  Forall (λ x, ¬ P x) l → filter P l = [].
Proof.
  induction 1 as [|x l Hx _ IH]; [done|].
  by rewrite filter_cons_False.
Qed.

Section groupby_facts.
Context {K A : Type} `{EqDecision K}.
Context (le : relation K) `{∀ x y, Decision (le x y)}.
Context (key : A → K).
Implicit Types (rows : list A) (k : K) (g : list A).

Lemma groupby_keys rows :
  (groupby le key rows).*1 = merge_sort le (unique (key <$> rows)).
Proof.
  unfold groupby. rewrite <- list_fmap_compose.
  rewrite <- (list_fmap_id (merge_sort le _)) at 2.
  by apply list_fmap_ext.
Qed.

(** The keys of the groups are the distinct values of the key column. *)
Lemma groupby_keys_perm rows :
  (groupby le key rows).*1 ≡ₚ unique (key <$> rows).
Proof. rewrite groupby_keys. apply merge_sort_Permutation. Qed.

Lemma groupby_keys_NoDup rows : NoDup (groupby le key rows).*1.
Proof. rewrite groupby_keys_perm. apply NoDup_unique. Qed.

Lemma elem_of_groupby rows k g :
  (k, g) ∈ groupby le key rows ↔
  k ∈ key <$> rows ∧ g = filter (λ a, key a = k) rows.
Proof.
  unfold groupby. rewrite list_elem_of_fmap. split.
  - intros (k' & [= -> ->] & Hk). split; [|done].
    by rewrite merge_sort_Permutation, elem_of_unique in Hk.
  - intros [Hk ->]. exists k. split; [done|].
    by rewrite merge_sort_Permutation, elem_of_unique.
Qed.

(** Every group has a row. *)
Lemma groupby_nonempty rows k g : (k, g) ∈ groupby le key rows → g ≠ [].
Proof.
  rewrite elem_of_groupby. intros [Hk ->] Hnil.
  apply list_elem_of_fmap in Hk as (a & -> & Ha).
  by apply (filter_nil_not_elem_of _ _ a Hnil).
Qed.

(** The groups come in ascending order of their keys. *)
Lemma groupby_keys_sorted `{!Transitive le, !Total le} rows :
  StronglySorted le (groupby le key rows).*1.
Proof. rewrite groupby_keys. by apply StronglySorted_merge_sort. Qed.
End groupby_facts.

(** ** The merged table *)

Lemma elem_of_joined sales customers inventory m :
  m ∈ joined sales customers inventory ↔
  ∃ s p c, s ∈ sales ∧ p ∈ inventory ∧ c ∈ customers ∧
    Inventory.productid p = Sales.productid s ∧
    Customers.customerid c = Sales.customerid s ∧
    m = with_customer (with_inventory s p) c.
Proof.
  unfold joined. rewrite elem_of_merge. split.
  - intros (si & c & Hsi & Hc & Hk & ->).
    apply elem_of_merge in Hsi as (s & p & Hs & Hp & Hkp & ->).
    exists s, p, c. done.
  - intros (s & p & c & Hs & Hp & Hc & Hkp & Hkc & ->).
    exists (with_inventory s p), c. split_and!; [|done..].
    apply elem_of_merge. eauto 10.
Qed.

Lemma joined_app s1 s2 customers inventory :
  joined (s1 ++ s2) customers inventory =
  joined s1 customers inventory ++ joined s2 customers inventory.
Proof. unfold joined. by rewrite !merge_app. Qed.

(** Nothing passes an empty category filter. *)
Lemma merged_nil_filter sales customers inventory :
  merged sales customers inventory [] = [].
Proof.
  unfold merged. apply filter_none, Forall_forall.
  intros m _. apply not_elem_of_nil.
Qed.

Lemma merged_excluded sales customers inventory category_filter :
  Forall (λ p, Inventory.category p ∉ category_filter) inventory →
  merged sales customers inventory category_filter = [].
Proof.
  intros Hinv. unfold merged. apply filter_none, Forall_forall.
  intros m (s & p & c & _ & Hp & _ & _ & _ & ->)%elem_of_joined.
  rewrite Forall_forall in Hinv. by apply Hinv.
Qed.

(** No group is lost in the customer aggregate: it has one row for each
    customer of the merged table. *)
Lemma cust_seg_customerids (merged : list Merged.row) :
  CustSeg.customerid <$> cust_seg merged = (groupby Z.le Merged.customerid merged).*1.
Proof.
  unfold cust_seg.
  assert (Forall (λ kg, kg.2 ≠ []) (groupby Z.le Merged.customerid merged)) as Hne.
  { apply Forall_forall. intros [k g]. apply groupby_nonempty. }
  induction Hne as [|[c g] gs Hg _ IH]; [done|].
  simpl in *. destruct g as [|m g]; [done|]. simpl. by f_equal.
Qed.

(** ** The KPIs *)

Lemma elem_of_dropna {K : Type} (column : list (option K)) (x : K) :
  x ∈ dropna column ↔ Some x ∈ column.
Proof.
  unfold dropna. rewrite list_elem_of_omap. split.
  - intros (o & Ho & Heq). simpl in Heq. by subst o.
  - intros Hx. by exists (Some x).
Qed.

Lemma elem_of_dropna_fmap {A K : Type} (f : A → option K) (l : list A) (x : K) :
  x ∈ dropna (f <$> l) ↔ ∃ a, a ∈ l ∧ f a = Some x.
Proof.
  rewrite elem_of_dropna, list_elem_of_fmap. naive_solver.
Qed.

(** A column without NULL cells loses nothing in [dropna]. *)
Lemma dropna_Some {A K : Type} (f : A → option K) (l : list A) :
  Forall (λ a, is_Some (f a)) l → Some <$> dropna (f <$> l) = f <$> l.
Proof.
  induction 1 as [|a l [x Hx] _ IH]; [done|].
  unfold dropna in *. csimpl. rewrite Hx. csimpl. by rewrite IH.
Qed.

Lemma count_Some {A K : Type} (f : A → option K) (l : list A) :
  Forall (λ a, is_Some (f a)) l → count (f <$> l) = length l.
Proof.
  intros Hl. unfold count.
  by rewrite <- (length_fmap Some), dropna_Some, length_fmap.
Qed.

Lemma count_le_length {K : Type} (column : list (option K)) :
  (count column ≤ length column)%nat.
Proof.
  unfold count, dropna. induction column as [|[x|] l IH]; csimpl; lia.
Qed.


(** C3: for every category filter, [total_orders] is the number of
    distinct [transactionid] values among the rows of the joined table
    whose category is in the filter (a NULL is no value), and it is 0
    for the empty filter. *)
Theorem total_orders_distinct_transactionids
    (sales : list (Sales.row DateCell)) (customers : list Customers.row)
    (inventory : list Inventory.row) (category_filter : list string) :
  (∃ ids : gset Z,
     (∀ t, t ∈ ids ↔
        ∃ m, m ∈ joined sales customers inventory ∧
             Merged.category m ∈ category_filter ∧ Merged.transactionid m = Some t) ∧
     total_orders sales customers inventory category_filter = size ids) ∧
  total_orders sales customers inventory [] = 0%nat.
Proof.
  split.
  - exists (list_to_set
              (dropna (Merged.transactionid
                         <$> merged sales customers inventory category_filter))).
    split; [|apply nunique_size].
    intros t. rewrite elem_of_list_to_set, elem_of_dropna_fmap. unfold merged.
    split.
    + intros (m & [Hc Hm]%list_elem_of_filter & Ht). eauto.
    + intros (m & Hm & Hc & Ht). exists m. split; [|done].
      by apply list_elem_of_filter.
  - unfold total_orders. by rewrite merged_nil_filter.
Qed.

(** C4: when the filter is empty, or names no category of the inventory,
    the three KPIs are zero. *)
Theorem kpis_zero_when_all_excluded
    (sales : list (Sales.row DateCell)) (customers : list Customers.row)
    (inventory : list Inventory.row) (category_filter : list string) :
  category_filter = [] ∨
    Forall (λ p, Inventory.category p ∉ category_filter) inventory →
  total_revenue sales customers inventory category_filter = 0 ∧
  total_orders sales customers inventory category_filter = 0%nat ∧
  total_customers sales customers inventory category_filter = 0%nat.
Proof.
  intros Hex.
  assert (merged sales customers inventory category_filter = []) as Hm.
  { destruct Hex as [->|Hex]; [apply merged_nil_filter|by apply merged_excluded]. }
  unfold total_revenue, total_orders, total_customers. by rewrite Hm.
Qed.

Lemma kpis_zero_when_all_excluded_witness :
  (["toys"] = [] ∨ Forall (λ p, Inventory.category p ∉ ["toys"]) one_product) ∧
  total_revenue march_sales one_customer one_product ["toys"] = 0 ∧
  total_orders march_sales one_customer one_product ["toys"] = 0%nat ∧
  total_customers march_sales one_customer one_product ["toys"] = 0%nat.
Proof.
  assert (["toys"] = [] ∨ Forall (λ p, Inventory.category p ∉ ["toys"]) one_product) as H.
  { right. compute_done. }
  split; [exact H|].
  exact (kpis_zero_when_all_excluded march_sales one_customer one_product ["toys"] H).
Defined.

(** ** Segments by frequency *)

Lemma elem_of_customer_segments {D : Type} (sales : list (Sales.row D)) (r : Segments.row) :
  r ∈ customer_segments sales ↔
  ∃ g, Segments.customerid r ∈ Sales.customerid <$> sales ∧
       g = filter (λ s, Sales.customerid s = Segments.customerid r) sales ∧
       Segments.total_orders r = Z.of_nat (count (Sales.transactionid <$> g)) ∧
       Segments.customer_segment r =
         customer_segment (Z.of_nat (count (Sales.transactionid <$> g))).
Proof.
  unfold customer_segments. rewrite list_elem_of_fmap. split.
  - intros ([c g] & -> & [Hc ->]%elem_of_groupby). simpl. eauto.
  - intros (g & Hc & -> & Hn & Hs). destruct r as [c n seg]; simpl in *.
    exists (c, filter (λ s, Sales.customerid s = c) sales). split.
    + by rewrite Hn, Hs.
    + by apply elem_of_groupby.
Qed.

Lemma customer_segment_cases (x : Z) :
  (x = 0 → customer_segment x = "Inactive") ∧
  (1 ≤ x ≤ 5 → customer_segment x = "Low") ∧
  (6 ≤ x ≤ 7 → customer_segment x = "Medium") ∧
  (7 < x → customer_segment x = "High").
Proof.
  unfold customer_segment. repeat case_decide; repeat split; intros; (done || lia).
Qed.

(** C2: the segment is a step function of the customer's transaction
    count in the raw sales table, the number of the customer's rows
    there with a [transactionid] (all of the customer's rows when no
    [transactionid] is NULL): 0 is "Inactive", 1 to 5 "Low", 6 and 7
    "Medium", more than 7 "High". *)
Theorem customer_segments_step_function :
  (∀ x : Z,
     (x = 0 → customer_segment x = "Inactive") ∧
     (1 ≤ x ≤ 5 → customer_segment x = "Low") ∧
     (6 ≤ x ≤ 7 → customer_segment x = "Medium") ∧
     (7 < x → customer_segment x = "High")) ∧
  (customer_segment 0 = "Inactive" ∧ customer_segment 1 = "Low" ∧
   customer_segment 5 = "Low" ∧ customer_segment 6 = "Medium" ∧
   customer_segment 7 = "Medium" ∧ customer_segment 8 = "High") ∧
  (∀ (D : Type) (sales : list (Sales.row D)),
     NoDup (Segments.customerid <$> customer_segments sales) ∧
     (∀ c, c ∈ Sales.customerid <$> sales ↔
           c ∈ Segments.customerid <$> customer_segments sales) ∧
     (∀ r, r ∈ customer_segments sales →
        Segments.total_orders r =
          Z.of_nat (count (Sales.transactionid
                             <$> filter (λ s, Sales.customerid s = Segments.customerid r) sales)) ∧
        (Forall (λ s, is_Some (Sales.transactionid s)) sales →
         Segments.total_orders r =
           Z.of_nat (length (filter (λ s, Sales.customerid s = Segments.customerid r) sales))) ∧
        Segments.customer_segment r = customer_segment (Segments.total_orders r))).
Proof.
  split; [exact customer_segment_cases|]. split; [by repeat split|].
  intros D sales. split_and!.
  - unfold customer_segments. rewrite <- list_fmap_compose.
    erewrite list_fmap_ext; [apply (groupby_keys_NoDup Z.le)|].
    by intros ? [c g].
  - intros c. rewrite (list_elem_of_fmap Segments.customerid). split.
    + intros Hc.
      set (n := Z.of_nat (count (Sales.transactionid
                                   <$> filter (λ s, Sales.customerid s = c) sales))).
      exists (Segments.Row c n (customer_segment n)).
      split; [done|]. apply elem_of_customer_segments. simpl. eauto.
    + by intros (r & -> & (g & Hc & _)%elem_of_customer_segments).
  - intros r (g & _ & -> & Hn & Hs)%elem_of_customer_segments.
    split_and!; [done| |by rewrite Hs, Hn].
    intros Hids. rewrite Hn, count_Some; [done|].
    rewrite Forall_forall in Hids. apply Forall_forall.
    intros s [_ Hin]%list_elem_of_filter. by apply Hids.
Qed.

Lemma customer_segments_step_function_witness :
  customer_segments march_sales = [Segments.Row 7 2 "Low"] ∧
  Segments.Row 7 2 "Low" ∈ customer_segments march_sales ∧
  Forall (λ s, is_Some (Sales.transactionid s)) march_sales ∧
  Segments.total_orders (Segments.Row 7 2 "Low") =
    Z.of_nat (length (filter (λ s, Sales.customerid s = 7) march_sales)) ∧
  Segments.customer_segment (Segments.Row 7 2 "Low") = customer_segment 2.
Proof.
  assert (Segments.Row 7 2 "Low" ∈ customer_segments march_sales) as Hin
    by (vm_compute; left).
  assert (Forall (λ s, is_Some (Sales.transactionid s)) march_sales) as Hids
    by (repeat constructor; by eexists).
  split; [by vm_compute|]. split; [exact Hin|]. split; [exact Hids|].
  destruct (proj2 (proj2 (proj2 (proj2 customer_segments_step_function) _ march_sales))
              (Segments.Row 7 2 "Low") Hin) as (_ & Hlen & Hseg).
  split; [exact (Hlen Hids)|exact Hseg].
Defined.

Lemma count_zero {K : Type} (column : list (option K)) :
  count column = 0%nat ↔ Forall (λ o, o = None) column.
Proof.
  unfold count, dropna. induction column as [|[x|] l IH]; csimpl.
  - split; [constructor|done].
  - split; [done|]. by intros [[=] _]%Forall_cons.
  - rewrite IH. split; [by constructor|]. by intros [_ ?]%Forall_cons.
Qed.

(** C9, as the code has it: ["count"] counts the [transactionid] cells
    that are not NULL, so a row of the segmentation table has
    [total_orders = 0], and with it the label "Inactive", exactly when
    every [transactionid] of that customer is NULL; when no
    [transactionid] of the table is NULL, every row counts at least one
    order and no customer is labelled "Inactive". *)
Theorem customer_segments_inactive_without_ids
    (sales : list (Sales.row DateCell)) (r : Segments.row) :
  r ∈ customer_segments sales →
  (Segments.customer_segment r = "Inactive" ↔ Segments.total_orders r = 0) ∧
  (Segments.total_orders r = 0 ↔
   Forall (λ s, Sales.customerid s = Segments.customerid r →
                Sales.transactionid s = None) sales) ∧
  (Forall (λ s, is_Some (Sales.transactionid s)) sales →
   1 ≤ Segments.total_orders r ∧ Segments.customer_segment r ≠ "Inactive").
Proof.
  intros (g & Hc & -> & Hn & Hs)%elem_of_customer_segments.
  assert (Segments.customer_segment r = "Inactive" ↔ Segments.total_orders r = 0) as Hlabel.
  { rewrite Hs, <- Hn. unfold customer_segment.
    repeat case_decide; split; (done || lia). }
  split_and!; [done| |].
  - rewrite Hn. rewrite <- Nat2Z.inj_0, Nat2Z.inj_iff, count_zero, Forall_fmap.
    rewrite !Forall_forall. split.
    + intros Hg s Hin Hk. apply (Hg s). by apply list_elem_of_filter.
    + intros Hall s [Hk Hin]%list_elem_of_filter. by apply Hall.
  - intros Hids.
    assert (1 ≤ Segments.total_orders r) as Hpos.
    { rewrite Hn, count_Some.
      - apply list_elem_of_fmap in Hc as (s & Hk & Hs').
        assert (s ∈ filter (λ s, Sales.customerid s = Segments.customerid r) sales) as Hin
          by (by apply list_elem_of_filter).
        destruct (filter _ sales); [by apply elem_of_nil in Hin|simpl; lia].
      - rewrite Forall_forall in Hids. apply Forall_forall.
        intros s [_ Hin]%list_elem_of_filter. by apply Hids. }
    split; [done|]. rewrite Hlabel. lia.
Qed.

Lemma customer_segments_inactive_without_ids_witness :
  Segments.Row 7 2 "Low" ∈ customer_segments march_sales ∧
  Forall (λ s, is_Some (Sales.transactionid s)) march_sales ∧
  1 ≤ Segments.total_orders (Segments.Row 7 2 "Low") ∧
  Segments.customer_segment (Segments.Row 7 2 "Low") ≠ "Inactive".
Proof.
  assert (Segments.Row 7 2 "Low" ∈ customer_segments march_sales) as Hin
    by (vm_compute; left).
  assert (Forall (λ s, is_Some (Sales.transactionid s)) march_sales) as Hids
    by (repeat constructor; by eexists).
  split; [exact Hin|]. split; [exact Hids|].
  exact (proj2 (proj2 (customer_segments_inactive_without_ids march_sales _ Hin)) Hids).
Defined.

(** C9 as it is worded fails: customer 7 has one sale, whose
    [transactionid] is NULL; the table has rows, and the segmentation
    gives that customer [total_orders = 0] and the label "Inactive". *)
Lemma null_transactionid_is_inactive :
  null_id_sales ≠ [] ∧
  customer_segments null_id_sales =
    [Segments.Row 7 0 "Inactive"; Segments.Row 8 1 "Low"] ∧
  ¬ (∀ r, r ∈ customer_segments null_id_sales →
          1 ≤ Segments.total_orders r ∧ Segments.customer_segment r ≠ "Inactive").
Proof.
  split; [done|]. split; [reflexivity|].
  intros Hall. destruct (Hall (Segments.Row 7 0 "Inactive")) as [Hpos _].
  - vm_compute. left.
  - simpl in Hpos. lia.
Qed.

(** ** The inner join drops unmatched sales *)






(** ** Active days *)

Lemma nunique_eq_length {K : Type} `{EqDecision K} (l ds : list K) :
  NoDup ds → (∀ x, x ∈ ds ↔ x ∈ l) → nunique l = length ds.
Proof.
  intros Hds Hel. unfold nunique. apply Permutation_length.
  apply NoDup_Permutation; [apply NoDup_unique|done|].
  intros x. by rewrite elem_of_unique, Hel.
Qed.

Lemma dt_as_cells (s : list (Sales.row Timestamp)) : dt (as_cells s) = Some s.
Proof.
  unfold dt, as_cells. apply mapM_Some, Forall2_fmap_l, Forall_Forall2_diag.
  apply Forall_forall. intros [] _. done.
Qed.

Lemma dt_Some sales s : dt sales = Some s → sales = as_cells s.
Proof.
  unfold dt, as_cells. intros H%mapM_Some.
  induction H as [|r r' sales s Hr _ IH]; [done|].
  rewrite fmap_cons, <- IH. f_equal.
  destruct r as [? ? ? ? ? [t|x]]; simplify_eq/=. done.
Qed.

Lemma datetime_dtype_dt sales : datetime_dtype sales → ∃ s, dt sales = Some s.
Proof.
  intros H. apply (mapM_is_Some_2 _ sales).
  eapply Forall_impl; [exact H|].
  intros r [t Ht]. simpl. by rewrite Ht.
Qed.

(** On a column of datetime dtype the conversion changes nothing. *)
Lemma to_datetime_as_cells parse (s : list (Sales.row Timestamp)) :
  to_datetime parse (as_cells s) = Some s.
Proof.
  unfold to_datetime, as_cells. apply mapM_Some, Forall2_fmap_l, Forall_Forall2_diag.
  apply Forall_forall. intros [] _. done.
Qed.

Lemma bought_on_as_cells (s : list (Sales.row Timestamp)) c d :
  bought_on (as_cells s) c d ↔
  d ∈ (λ r, ts_date (Sales.transactiondate r)) <$> filter (λ r, Sales.customerid r = c) s.
Proof.
  unfold bought_on, as_cells. rewrite list_elem_of_fmap. split.
  - intros (r & t & (r' & -> & Hr')%list_elem_of_fmap & Hc & Ht & <-).
    simpl in *. exists r'. split; [congruence|]. by apply list_elem_of_filter.
  - intros (r' & -> & [Hc Hr']%list_elem_of_filter).
    exists (set_transactiondate r' (Stamp (Sales.transactiondate r'))), (Sales.transactiondate r').
    split_and!; try done. apply list_elem_of_fmap. eauto.
Qed.

Lemma elem_of_active_days_table (s : list (Sales.row Timestamp)) (c : Z) (n : nat) :
  ActiveDays.Row c n ∈
    ((λ '(c, g), {| ActiveDays.customerid := c; ActiveDays.active_days := date_nunique g |})
       <$> groupby Z.le Sales.customerid s) ↔
  c ∈ Sales.customerid <$> s ∧
  n = date_nunique (filter (λ r, Sales.customerid r = c) s).
Proof.
  rewrite list_elem_of_fmap. split.
  - intros ([c' g] & [= -> ->] & [Hc ->]%elem_of_groupby). done.
  - intros [Hc ->]. exists (c, filter (λ r, Sales.customerid r = c) s).
    split; [done|]. by apply elem_of_groupby.
Qed.

(** A run reaches its end only on a [transactiondate] column of datetime
    dtype, which line 125 needs; on such a column, when the table has
    rows, it does reach it, since the conversions of lines 142 and 155
    change nothing.  (What [groupby.apply] gives on a table without rows
    varies with the library, so that case is left out.) *)
Lemma dashboard_is_Some argsort parse sales customers inventory category_filter :
  (is_Some (dashboard argsort parse sales customers inventory category_filter) →
   datetime_dtype sales) ∧
  (datetime_dtype sales → sales ≠ [] →
   is_Some (dashboard argsort parse sales customers inventory category_filter)).
Proof.
  unfold dashboard, repeat_customers, active_days_table. split.
  - intros [r Hr]. destruct (dt sales) as [s|] eqn:Hs; [|done].
    apply dt_Some in Hs as ->. apply Forall_fmap, Forall_forall.
    intros r' _. simpl. eauto.
  - intros [s Hs]%datetime_dtype_dt Hne. rewrite Hs. simpl.
    apply dt_Some in Hs as ->.
    unfold loyalty_repeat, monthly. rewrite to_datetime_as_cells. simpl.
    destruct s; [done|]. simpl. eauto.
Qed.

(** C8: on a sales table of datetime dtype, [repeat_customers] holds the
    row [(c, n)] exactly when [n] is the number of distinct calendar
    dates on which customer [c] bought and [n > 1]; one date excludes
    the customer, two dates include them with [active_days = 2]. *)
Theorem repeat_customers_distinct_dates (sales : list (Sales.row DateCell)) :
  datetime_dtype sales →
  ∃ t, repeat_customers sales = Some t ∧
    ∀ (c : Z) (ds : list Date),
      NoDup ds → (∀ d, d ∈ ds ↔ bought_on sales c d) →
      (∀ n, ActiveDays.Row c n ∈ t ↔ n = length ds ∧ (1 < n)%nat) ∧
      (length ds = 1%nat → c ∉ ActiveDays.customerid <$> t) ∧
      (length ds = 2%nat → ActiveDays.Row c 2 ∈ t).
Proof.
  intros [s Hs]%datetime_dtype_dt.
  unfold repeat_customers, active_days_table. rewrite Hs. simpl.
  eexists. split; [done|].
  apply dt_Some in Hs as ->.
  intros c ds Hnd Hds.
  assert (date_nunique (filter (λ r, Sales.customerid r = c) s) = length ds) as Hlen.
  { apply nunique_eq_length; [done|]. intros d. by rewrite Hds, bought_on_as_cells. }
  assert (∀ n, ActiveDays.Row c n ∈
      filter (λ r, (1 < ActiveDays.active_days r)%nat)
        ((λ '(c, g), {| ActiveDays.customerid := c; ActiveDays.active_days := date_nunique g |})
           <$> groupby Z.le Sales.customerid s)
      ↔ n = length ds ∧ (1 < n)%nat) as Hrow.
  { intros n. rewrite list_elem_of_filter, elem_of_active_days_table, Hlen. simpl.
    split; [naive_solver|]. intros [-> Hn]. split_and!; try done.
    destruct ds as [|d ds]; [simpl in Hn; lia|].
    assert (bought_on (as_cells s) c d) as (r & _ & Hr & Hc & _) by (apply Hds; left).
    apply list_elem_of_fmap in Hr as (r' & -> & Hr').
    apply list_elem_of_fmap. exists r'. split; [by rewrite <- Hc|done]. }
  split_and!.
  - exact Hrow.
  - intros H1 ([c' n] & -> & Hin)%list_elem_of_fmap.
    apply Hrow in Hin. simpl in *. lia.
  - intros H2. apply Hrow. lia.
Qed.

Lemma repeat_customers_distinct_dates_witness :
  datetime_dtype march_sales ∧
  ∃ t, repeat_customers march_sales = Some t ∧ ActiveDays.Row 7 2 ∈ t.
Proof.
  assert (datetime_dtype march_sales) as Hdt by (repeat constructor; by eexists).
  split; [exact Hdt|].
  destruct (repeat_customers_distinct_dates march_sales Hdt) as (t & Ht & Hrows).
  exists t. split; [exact Ht|].
  refine (proj2 (proj2 (Hrows 7
    [ {| date_year := 2024; date_month := 3; date_day := 5 |};
      {| date_year := 2024; date_month := 3; date_day := 28 |} ] _ _)) eq_refl).
  - compute_done.
  - intros d. change march_sales with (as_cells march_stamps).
    rewrite bought_on_as_cells. reflexivity.
Defined.

(** C10: on a sales table of datetime dtype, the active-days table of
    the repeat-customer metric and the loyalty table (built after
    [pd.to_datetime] on the copy) list the same customers with the same
    number of distinct dates. *)
Theorem active_days_agrees_with_days_active
    (parse : string → option Timestamp) (sales : list (Sales.row DateCell)) :
  datetime_dtype sales →
  ∃ t1 t2,
    active_days_table sales = Some t1 ∧
    loyalty_repeat parse sales = Some t2 ∧
    (λ r, (ActiveDays.customerid r, ActiveDays.active_days r)) <$> t1 =
    (λ r, (Loyalty.customerid r, Loyalty.days_active r)) <$> t2.
Proof.
  intros [s Hs]%datetime_dtype_dt.
  unfold active_days_table, loyalty_repeat. rewrite Hs.
  apply dt_Some in Hs as ->. rewrite to_datetime_as_cells. simpl.
  do 2 eexists. split_and!; [done..|].
  rewrite <- !list_fmap_compose. apply list_fmap_ext. by intros ? [c g].
Qed.

Lemma active_days_agrees_with_days_active_witness :
  datetime_dtype march_sales ∧
  ∃ t1 t2,
    active_days_table march_sales = Some t1 ∧
    loyalty_repeat no_parse march_sales = Some t2 ∧
    (λ r, (ActiveDays.customerid r, ActiveDays.active_days r)) <$> t1 =
    (λ r, (Loyalty.customerid r, Loyalty.days_active r)) <$> t2.
Proof.
  assert (datetime_dtype march_sales) as Hdt by (repeat constructor; by eexists).
  split; [exact Hdt|].
  exact (active_days_agrees_with_days_active no_parse march_sales Hdt).
Defined.

(** ** Monthly revenue *)

Lemma StronglySorted_strict {A : Type} (R : relation A) `{!AntiSymm (=) R} (l : list A) :
  StronglySorted R l → NoDup l → StronglySorted (strict R) l.
Proof.
  induction 1 as [|x l _ IH Hx]; intros Hnd; [constructor|].
  apply NoDup_cons in Hnd as [Hxl Hnd].
  constructor; [by apply IH|].
  apply Forall_forall. intros y Hy. rewrite Forall_forall in Hx.
  split; [by apply Hx|].
  intros Hyx. assert (x = y) as -> by (apply (anti_symm R); auto). done.
Qed.

Lemma monthly_months parse sales s t :
  to_datetime parse sales = Some s → monthly parse sales = Some t →
  Monthly.month <$> t = (groupby String.le month s).*1.
Proof.
  unfold monthly. intros -> Ht. simpl in Ht. destruct s as [|r s]; [done|].
  injection Ht as <-.
  rewrite <- list_fmap_compose. apply list_fmap_ext. by intros ? [k g].
Qed.

Lemma elem_of_monthly parse sales s t row :
  to_datetime parse sales = Some s → monthly parse sales = Some t →
  row ∈ t ↔
  Monthly.month row ∈ month <$> s ∧
  Monthly.monthly_revenue row =
    Zsum ((λ x, Sales.quantitypurchased x * Sales.price x)
            <$> filter (λ x, month x = Monthly.month row) s).
Proof.
  unfold monthly. intros -> Ht. simpl in Ht. destruct s as [|r0 s0] eqn:Es; [done|].
  injection Ht as <-. rewrite <- Es. clear Es. rewrite list_elem_of_fmap. split.
  - intros ([k g] & -> & [Hk ->]%elem_of_groupby). done.
  - intros [Hk Hrev]. destruct row as [k v]; simpl in *.
    exists (k, filter (λ x, month x = k) s). split; [by rewrite Hrev|].
    by apply elem_of_groupby.
Qed.

(** The sum of the buckets is the sum over all the rows. *)
Lemma Zsum_app (l1 l2 : list Z) : Zsum (l1 ++ l2) = Zsum l1 + Zsum l2.
Proof. unfold Zsum. induction l1 as [|x l1 IH]; simpl; lia. Qed.

Lemma digit_mod n : digit n = digit (n `mod` 10).
Proof. unfold digit. by rewrite Z.mod_mod. Qed.

(** Digits compare as characters the way they compare as numbers. *)
Lemma digit_compare a b :
  Ascii.compare (digit a) (digit b) = Z.compare (a `mod` 10) (b `mod` 10).
Proof.
  rewrite (digit_mod a), (digit_mod b).
  pose proof (Z.mod_pos_bound a 10 eq_refl) as Ha.
  pose proof (Z.mod_pos_bound b 10 eq_refl) as Hb.
  generalize dependent (a `mod` 10). generalize dependent (b `mod` 10).
  intros y Hy x Hx.
  assert (x = 0 ∨ x = 1 ∨ x = 2 ∨ x = 3 ∨ x = 4 ∨
          x = 5 ∨ x = 6 ∨ x = 7 ∨ x = 8 ∨ x = 9) as Hxs by lia.
  assert (y = 0 ∨ y = 1 ∨ y = 2 ∨ y = 3 ∨ y = 4 ∨
          y = 5 ∨ y = 6 ∨ y = 7 ∨ y = 8 ∨ y = 9) as Hys by lia.
  clear Hx Hy.
  repeat (destruct Hxs as [->|Hxs]); try subst x;
  repeat (destruct Hys as [->|Hys]); try subst y; reflexivity.
Qed.

(** The order of the bucket names is the order of the months. *)
Lemma month_str_compare d1 d2 :
  valid_date d1 → valid_date d2 →
  String.compare (month_str d1) (month_str d2) =
  Z.compare (month_index d1) (month_index d2).
Proof.
  intros [Hy1 Hm1] [Hy2 Hm2]. unfold month_str, month_index.
  destruct d1 as [y1 m1 ?], d2 as [y2 m2 ?]. simpl in *.
  rewrite !digit_compare.
  change (Ascii.compare "-" "-") with Eq.
  symmetry.
  repeat match goal with
  | |- context [ (?a `mod` 10 ?= ?b `mod` 10) ] =>
      destruct (Z.compare_spec (a `mod` 10) (b `mod` 10))
  end;
  first [apply Z.compare_eq_iff | apply Z.compare_lt_iff | apply Z.compare_gt_iff];
  Z.div_mod_to_equations; lia.
Qed.

Lemma month_str_inj d1 d2 :
  valid_date d1 → valid_date d2 →
  month_str d1 = month_str d2 ↔
  date_year d1 = date_year d2 ∧ date_month d1 = date_month d2.
Proof.
  intros H1 H2. split.
  - intros Heq.
    assert (String.compare (month_str d1) (month_str d2) = Eq) as Hcmp.
    { rewrite Heq. pose proof (String.compare_antisym (month_str d2) (month_str d2)).
      by destruct (String.compare (month_str d2) (month_str d2)). }
    rewrite month_str_compare in Hcmp by done. apply Z.compare_eq_iff in Hcmp.
    unfold month_index in Hcmp. destruct H1, H2. lia.
  - intros [Hy Hm]. unfold month_str. by rewrite Hy, Hm.
Qed.

Lemma month_str_strict_le d1 d2 :
  valid_date d1 → valid_date d2 →
  strict String.le (month_str d1) (month_str d2) → month_index d1 < month_index d2.
Proof.
  intros H1 H2 [_ Hnle]. apply Z.compare_gt_iff.
  rewrite <- month_str_compare by done.
  unfold String.le, String.leb in Hnle.
  by destruct (String.compare (month_str d2) (month_str d1)).
Qed.

Lemma filter_ext_Forall {A : Type} (P Q : A → Prop)
    `{∀ x, Decision (P x)} `{∀ x, Decision (Q x)} (l : list A) :
  Forall (λ x, P x ↔ Q x) l → filter P l = filter Q l.
Proof.
  induction 1 as [|x l Hx _ IH]; [done|].
  rewrite !filter_cons, IH. destruct (decide (P x)), (decide (Q x)); naive_solver.
Qed.

Lemma fmap_preimage {A B : Type} (f : A → B) (P : A → Prop) (l : list B) :
  Forall (λ y, ∃ x, P x ∧ y = f x) l → ∃ k, l = f <$> k ∧ Forall P k.
Proof.
  induction 1 as [|y l (x & Hx & ->) _ (k & -> & Hk)].
  - by exists [].
  - exists (x :: k). split; [done|]. by constructor.
Qed.

Lemma StronglySorted_month_index (ds : list Date) :
  Forall valid_date ds →
  StronglySorted (strict String.le) (month_str <$> ds) →
  StronglySorted Z.lt (month_index <$> ds).
Proof.
  induction 1 as [|d ds Hd Hds IH]; [constructor|].
  rewrite !fmap_cons. intros [Hsorted Hhd]%StronglySorted_inv.
  constructor; [by apply IH|].
  rewrite Forall_fmap in Hhd. rewrite Forall_fmap.
  rewrite Forall_forall in Hhd, Hds. apply Forall_forall.
  intros d' Hd'. apply month_str_strict_le; [done|by apply Hds|by apply Hhd].
Qed.

(** C6: on a sales table with rows, every sale falls into the bucket
    named after its year and month; a bucket holds the sum of quantity
    times the sales-table price over the sales of that month; the
    buckets come in ascending order of the month.  The two March 2024 sales give the single bucket
    "2024-03" with revenue 25. *)
Theorem monthly_revenue_by_bucket
    (parse : string → option Timestamp)
    (sales : list (Sales.row DateCell)) (s : list (Sales.row Timestamp)) :
  sales ≠ [] →
  to_datetime parse sales = Some s →
  Forall (λ r, valid_date (sale_date r)) s →
  (∃ t, monthly parse sales = Some t ∧
     (∀ r, r ∈ s → ∃ row, row ∈ t ∧ Monthly.month row = month_str (sale_date r)) ∧
     (∀ row, row ∈ t → ∃ r, r ∈ s ∧
        Monthly.month row = month_str (sale_date r) ∧
        Monthly.monthly_revenue row =
          Zsum ((λ x, Sales.quantitypurchased x * Sales.price x)
                  <$> filter (λ x, date_year (sale_date x) = date_year (sale_date r) ∧
                                   date_month (sale_date x) = date_month (sale_date r)) s)) ∧
     StronglySorted (strict String.le) (Monthly.month <$> t) ∧
     (∃ ds, Monthly.month <$> t = month_str <$> ds ∧
            StronglySorted Z.lt (month_index <$> ds))) ∧
  monthly no_parse march_sales = Some [Monthly.Row "2024-03" 25].
Proof.
  intros Hne Hs Hvalid. split; [|reflexivity].
  destruct (monthly parse sales) as [t|] eqn:Ht.
  2: { unfold monthly in Ht. rewrite Hs in Ht. simpl in Ht.
       destruct s; [|done]. apply length_mapM in Hs. by destruct sales. }
  exists t. split; [done|].
  pose proof (elem_of_monthly parse sales s t) as Hrow.
  rewrite Forall_forall in Hvalid.
  assert (StronglySorted (strict String.le) (Monthly.month <$> t)) as Hsorted.
  { rewrite (monthly_months parse sales s t) by done.
    apply StronglySorted_strict; [apply _| |apply groupby_keys_NoDup].
    apply groupby_keys_sorted; apply _. }
  split_and!.
  - intros r Hr.
    exists (Monthly.Row (month r)
              (Zsum ((λ x, Sales.quantitypurchased x * Sales.price x)
                       <$> filter (λ x, month x = month r) s))).
    split; [|done]. apply Hrow; [done..|]. simpl. split; [|done].
    by apply list_elem_of_fmap_2.
  - intros row [(r & Hm & Hr)%list_elem_of_fmap Hrev]%Hrow; [|done..].
    exists r. split_and!; [done..|].
    rewrite Hrev. do 2 f_equal. apply filter_ext_Forall, Forall_forall.
    intros x Hx. rewrite Hm. unfold month. apply month_str_inj; auto.
  - exact Hsorted.
  - destruct (fmap_preimage month_str valid_date (Monthly.month <$> t)) as (ds & Hds & Hv).
    { apply Forall_forall. intros k (row & -> & Hin)%list_elem_of_fmap.
      apply Hrow in Hin as [(r & Hm & Hr)%list_elem_of_fmap _]; [|done..].
      exists (sale_date r). split; [by apply Hvalid|done]. }
    exists ds. split; [done|].
    apply StronglySorted_month_index; [done|]. by rewrite <- Hds.
Qed.

Lemma monthly_revenue_by_bucket_witness :
  march_sales ≠ [] ∧
  to_datetime no_parse march_sales = Some march_stamps ∧
  Forall (λ r, valid_date (sale_date r)) march_stamps ∧
  ∃ t, monthly no_parse march_sales = Some t ∧
       StronglySorted (strict String.le) (Monthly.month <$> t).
Proof.
  assert (to_datetime no_parse march_sales = Some march_stamps) as Hs by reflexivity.
  assert (Forall (λ r, valid_date (sale_date r)) march_stamps) as Hv
    by (repeat constructor; simpl; lia).
  assert (march_sales ≠ []) as Hne by done.
  split; [exact Hne|]. split; [exact Hs|]. split; [exact Hv|].
  destruct (proj1 (monthly_revenue_by_bucket no_parse march_sales march_stamps Hne Hs Hv))
    as (t & Ht & _ & _ & Hsorted & _).
  exists t. split; [exact Ht|exact Hsorted].
Defined.

(** ** Which price the revenues read *)

Lemma filter_all {A : Type} (P : A → Prop) `{∀ x, Decision (P x)} (l : list A) :
  Forall P l → filter P l = l.
Proof.
  induction 1 as [|x l Hx _ IH]; [done|].
  by rewrite filter_cons_True, IH.
Qed.

Lemma Zsum_const {A : Type} (f : A → Z) (v : Z) (l : list A) :
  Forall (λ x, f x = v) l → Zsum (f <$> l) = Z.of_nat (length l) * v.
Proof.
  induction 1 as [|x l Hx _ IH]; [done|].
  rewrite fmap_cons. change (Zsum (f x :: (f <$> l))) with (f x + Zsum (f <$> l)).
  rewrite IH, Hx. simpl length. lia.
Qed.

(** The rows that one sale yields. *)
Lemma joined_single (s : Sales.row DateCell) customers inventory :
  joined [s] customers inventory =
  p ← filter (λ p, Inventory.productid p = Sales.productid s) inventory;
  with_customer (with_inventory s p)
    <$> filter (λ c, Customers.customerid c = Sales.customerid s) customers.
Proof.
  unfold joined, merge. rewrite bind_singleton.
  induction (filter (λ p, Inventory.productid p = Sales.productid s) inventory)
    as [|p ps IH]; [done|].
  rewrite fmap_cons, !bind_cons. by rewrite IH.
Qed.

Section revenue_of_a_selection.
Context (P : Merged.row → Prop) `{∀ m, Decision (P m)}.
Context (Q : Inventory.row → Prop) `{∀ p, Decision (Q p)}.
Context (customers : list Customers.row) (inventory : list Inventory.row).
Hypothesis P_Q : ∀ s p c, P (with_customer (with_inventory s p) c) ↔ Q p.

Lemma selection_revenue_single (s : Sales.row DateCell) :
  Zsum ((λ m, Merged.quantitypurchased m * Merged.price_x m)
          <$> filter P (joined [s] customers inventory)) =
  Z.of_nat (matches Q customers inventory s) *
    (Sales.quantitypurchased s * Sales.price s).
Proof.
  rewrite joined_single. unfold matches.
  induction inventory as [|p inv IH]; [done|].
  rewrite !filter_cons.
  destruct (decide (Inventory.productid p = Sales.productid s)) as [Hp|Hp].
  - rewrite bind_cons, filter_app, fmap_app, Zsum_app, IH.
    destruct (decide (Q p)) as [Hq|Hq].
    + rewrite decide_True by done.
      rewrite filter_all by (apply Forall_fmap, Forall_forall; intros c _; by apply P_Q).
      rewrite <- list_fmap_compose, (Zsum_const _ (Sales.quantitypurchased s * Sales.price s))
        by (by apply Forall_forall).
      rewrite length_cons. lia.
    + rewrite decide_False by tauto.
      rewrite filter_none by (apply Forall_fmap, Forall_forall; intros c _; simpl; by rewrite P_Q).
      simpl. lia.
  - rewrite decide_False by tauto. apply IH.
Qed.

Lemma selection_revenue (sales : list (Sales.row DateCell)) :
  Zsum ((λ m, Merged.quantitypurchased m * Merged.price_x m)
          <$> filter P (joined sales customers inventory)) =
  Zsum ((λ s, Z.of_nat (matches Q customers inventory s) *
                (Sales.quantitypurchased s * Sales.price s)) <$> sales).
Proof.
  induction sales as [|s sales IH]; [done|].
  change (s :: sales) with ([s] ++ sales) at 1.
  rewrite joined_app, filter_app, fmap_app, Zsum_app, IH, selection_revenue_single.
  done.
Qed.
End revenue_of_a_selection.

Lemma elem_of_product_perf (merged : list Merged.row) (row : ProductPerf.row) :
  row ∈ product_perf merged ↔
  ProductPerf.productname row ∈ Merged.productname <$> merged ∧
  ProductPerf.total_units_sold row =
    Zsum (Merged.quantitypurchased
            <$> filter (λ m, Merged.productname m = ProductPerf.productname row) merged) ∧
  ProductPerf.total_revenue row =
    Zsum ((λ m, Merged.price_x m * Merged.quantitypurchased m)
            <$> filter (λ m, Merged.productname m = ProductPerf.productname row) merged).
Proof.
  unfold product_perf. rewrite list_elem_of_fmap. split.
  - intros ([k g] & -> & [Hk ->]%elem_of_groupby). done.
  - intros (Hk & Hu & Hr). destruct row as [k u r]; simpl in *.
    exists (k, filter (λ m, Merged.productname m = k) merged).
    split; [by rewrite Hu, Hr|]. by apply elem_of_groupby.
Qed.

Lemma Zsum_indicator {K : Type} `{EqDecision K} (a : K) (v : Z) (keys : list K) :
  NoDup keys → a ∈ keys →
  Zsum ((λ k, if decide (a = k) then v else 0) <$> keys) = v.
Proof.
  induction 1 as [|k keys Hk Hnd IH]; [by intros ?%elem_of_nil|].
  rewrite fmap_cons. change (Zsum (?x :: ?l)) with (x + Zsum l).
  intros [->|Ha]%elem_of_cons.
  - rewrite decide_True by done.
    rewrite (Zsum_const _ 0); [lia|].
    apply Forall_forall. intros k' Hk'. rewrite decide_False; [done|].
    by intros ->.
  - rewrite decide_False by (by intros ->). rewrite IH by done. lia.
Qed.

(** Summing group by group is summing over all the rows. *)
Lemma Zsum_by_key {A K : Type} `{EqDecision K} (key : A → K) (f : A → Z)
    (keys : list K) (rows : list A) :
  NoDup keys → Forall (λ x, key x ∈ keys) rows →
  Zsum ((λ k, Zsum (f <$> filter (λ x, key x = k) rows)) <$> keys) = Zsum (f <$> rows).
Proof.
  intros Hnd. induction 1 as [|x rows Hx _ IH].
  - rewrite (Zsum_const _ 0); [simpl; lia|]. apply Forall_forall. by intros k _.
  - rewrite fmap_cons. change (Zsum (f x :: (f <$> rows))) with (f x + Zsum (f <$> rows)).
    rewrite <- IH, <- (Zsum_indicator (key x) (f x) keys) by done.
    clear IH Hx Hnd. induction keys as [|k keys IHk]; [done|].
    rewrite !fmap_cons. change (Zsum (?y :: ?l)) with (y + Zsum l).
    rewrite IHk, filter_cons. destruct (decide (key x = k)); [|lia].
    rewrite fmap_cons. change (Zsum (?y :: ?l)) with (y + Zsum l). lia.
Qed.

Lemma Zsum_groupby {A K : Type} `{EqDecision K} (le : relation K)
    `{∀ x y, Decision (le x y)} (key : A → K) (f : A → Z) (rows : list A) :
  Zsum ((λ kg, Zsum (f <$> kg.2)) <$> groupby le key rows) = Zsum (f <$> rows).
Proof.
  rewrite <- (Zsum_by_key key f (groupby le key rows).*1 rows).
  - rewrite groupby_keys. unfold groupby. by rewrite <- !list_fmap_compose.
  - apply groupby_keys_NoDup.
  - apply Forall_forall. intros x Hx.
    rewrite groupby_keys_perm, elem_of_unique. by apply list_elem_of_fmap_2.
Qed.

(** The conversion of the dates leaves quantities and prices alone. *)
Lemma to_datetime_revenue parse sales s :
  to_datetime parse sales = Some s →
  Zsum ((λ x, Sales.quantitypurchased x * Sales.price x) <$> s) =
  Zsum ((λ x, Sales.quantitypurchased x * Sales.price x) <$> sales).
Proof.
  unfold to_datetime. intros H%mapM_Some.
  induction H as [|r r' sales s Hr _ IH]; [done|].
  rewrite !fmap_cons. change (Zsum (?y :: ?l)) with (y + Zsum l).
  rewrite IH. destruct (match Sales.transactiondate r with
                        | Stamp t => Some t | Text x => parse x end);
    simplify_eq/=. done.
Qed.

(** The monthly series adds up to the revenue of all the sales. *)
Lemma monthly_total parse sales t :
  monthly parse sales = Some t →
  Zsum (Monthly.monthly_revenue <$> t) =
  Zsum ((λ x, Sales.quantitypurchased x * Sales.price x) <$> sales).
Proof.
  unfold monthly. destruct (to_datetime parse sales) as [s|] eqn:Hs; [|done].
  simpl. intros Ht. rewrite <- (to_datetime_revenue parse sales s Hs).
  destruct s as [|r0 s0] eqn:Es; [done|]. rewrite <- Es in *. clear Es Hs.
  injection Ht as <-.
  rewrite <- (Zsum_groupby String.le month _ s), <- list_fmap_compose.
  f_equal. apply list_fmap_ext. by intros ? [k g].
Qed.

(** C1, as the code has it: the KPI revenue and the revenue of each
    product are sums of quantity times the price field of the sales
    table, which the join carries as [price_x]; each sale counts once
    for every merged row it yields.  The monthly revenue sums the same
    field, and when every sale yields exactly one merged row the KPI
    revenue is the total of the monthly series.  The price of the
    inventory table enters none of them. *)
Theorem revenues_read_the_sales_price
    (sales : list (Sales.row DateCell)) (customers : list Customers.row)
    (inventory : list Inventory.row) (category_filter : list string) :
  total_revenue sales customers inventory category_filter =
    Zsum ((λ s, Z.of_nat (matches (λ p, Inventory.category p ∈ category_filter)
                            customers inventory s) *
                (Sales.quantitypurchased s * Sales.price s)) <$> sales) ∧
  (∀ row, row ∈ product_perf (merged sales customers inventory category_filter) →
     ProductPerf.total_revenue row =
       Zsum ((λ s, Z.of_nat (matches (λ p, Inventory.productname p = ProductPerf.productname row ∧
                                           Inventory.category p ∈ category_filter)
                               customers inventory s) *
                   (Sales.quantitypurchased s * Sales.price s)) <$> sales)) ∧
  (∀ parse s t row,
     to_datetime parse sales = Some s → monthly parse sales = Some t → row ∈ t →
     Monthly.monthly_revenue row =
       Zsum ((λ x, Sales.quantitypurchased x * Sales.price x)
               <$> filter (λ x, month x = Monthly.month row) s)) ∧
  (∀ parse t,
     monthly parse sales = Some t →
     Forall (λ s, matches (λ p, Inventory.category p ∈ category_filter)
                    customers inventory s = 1%nat) sales →
     total_revenue sales customers inventory category_filter =
       Zsum (Monthly.monthly_revenue <$> t)).
Proof.
  assert (total_revenue sales customers inventory category_filter =
    Zsum ((λ s, Z.of_nat (matches (λ p, Inventory.category p ∈ category_filter)
                            customers inventory s) *
                (Sales.quantitypurchased s * Sales.price s)) <$> sales)) as Hkpi
    by (unfold total_revenue, merged; by apply selection_revenue).
  split_and!; [| | |
    intros parse t Ht Hone; rewrite Hkpi, (monthly_total parse sales t Ht);
    f_equal; apply list_fmap_ext; intros i x Hx;
    rewrite (Forall_lookup_1 _ _ _ _ Hone Hx); lia].
  - exact Hkpi.
  - intros row (_ & _ & ->)%elem_of_product_perf. unfold merged.
    rewrite list_filter_filter.
    rewrite <- (selection_revenue
      (λ m, Merged.productname m = ProductPerf.productname row ∧
            Merged.category m ∈ category_filter)) by done.
    f_equal. apply list_fmap_ext. intros _ m _. lia.
  - intros parse s t row Hs Ht Hrow.
    by apply (elem_of_monthly parse sales s t row Hs Ht) in Hrow as [_ ?].
Qed.

Lemma revenues_read_the_sales_price_witness :
  monthly no_parse march_sales = Some [Monthly.Row "2024-03" 25] ∧
  Forall (λ s, matches (λ p, Inventory.category p ∈ ["tools"])
                 one_customer one_product s = 1%nat) march_sales ∧
  total_revenue march_sales one_customer one_product ["tools"] =
    Zsum (Monthly.monthly_revenue <$> [Monthly.Row "2024-03" 25]).
Proof.
  assert (monthly no_parse march_sales = Some [Monthly.Row "2024-03" 25]) as Ht
    by reflexivity.
  assert (Forall (λ s, matches (λ p, Inventory.category p ∈ ["tools"])
                         one_customer one_product s = 1%nat) march_sales) as Hone
    by (repeat constructor).
  split; [exact Ht|]. split; [exact Hone|].
  exact (proj2 (proj2 (proj2
    (revenues_read_the_sales_price march_sales one_customer one_product ["tools"])))
    no_parse _ Ht Hone).
Defined.

(** C1 as it is worded fails: the catalogue price of the widget is 7,
    it was sold at 10 and at 5, and the KPI revenue, the revenue of the
    product and the monthly revenue are all 2 * 10 + 1 * 5 = 25, not
    3 * 7 = 21. *)
Lemma kpi_revenue_not_at_inventory_price :
  Forall (λ r, Merged.price_x r ≠ Merged.price_y r)
    (merged march_sales one_customer one_product ["tools"]) ∧
  total_revenue march_sales one_customer one_product ["tools"] ≠
    Zsum ((λ r, Merged.quantitypurchased r * Merged.price_y r)
            <$> merged march_sales one_customer one_product ["tools"]) ∧
  total_revenue march_sales one_customer one_product ["tools"] = 25 ∧
  product_perf (merged march_sales one_customer one_product ["tools"]) =
    [ProductPerf.Row "widget" 3 25] ∧
  monthly no_parse march_sales = Some [Monthly.Row "2024-03" 25].
Proof. simpl. split_and!; [by repeat constructor|done..]. Qed.

(** ** Sorting the product table *)

Lemma iloc_nil {A : Type} (l : list A) : iloc l [] = [].
Proof. done. Qed.

Lemma iloc_cons {A : Type} (l : list A) (i : nat) (ix : list nat) :
  iloc l (i :: ix) = match l !! i with Some x => x :: iloc l ix | None => iloc l ix end.
Proof. done. Qed.

Section iloc_facts.
Context {A : Type}.
Implicit Types (l : list A) (ix : list nat).

Lemma iloc_app l ix1 ix2 : iloc l (ix1 ++ ix2) = iloc l ix1 ++ iloc l ix2.
Proof. apply omap_app. Qed.

Lemma iloc_reverse l ix : iloc l (reverse ix) = reverse (iloc l ix).
Proof.
  induction ix as [|i ix IH]; [done|].
  rewrite reverse_cons, iloc_app, IH, iloc_cons, iloc_cons, iloc_nil.
  destruct (l !! i); [by rewrite reverse_cons|by rewrite app_nil_r].
Qed.

Lemma iloc_fmap {B : Type} (f : A → B) l ix : f <$> iloc l ix = iloc (f <$> l) ix.
Proof.
  induction ix as [|i ix IH]; [done|].
  unfold iloc in *. simpl. rewrite list_lookup_fmap.
  destruct (l !! i); simpl; [|done]. f_equal. exact IH.
Qed.

(** Taking all the positions in order gives the table back. *)
Lemma iloc_seq l : iloc l (seq 0 (length l)) = l.
Proof.
  induction l as [|x l IH]; [done|].
  simpl length. rewrite <- cons_seq, iloc_cons. simpl.
  f_equal. rewrite <- fmap_S_seq.
  transitivity (iloc l (seq 0 (length l))); [|exact IH].
  apply list_omap_ext, Forall2_fmap_l, Forall_Forall2_diag, Forall_forall.
  by intros i _.
Qed.

(** Any arrangement of the positions gives a rearrangement of the table. *)
Lemma iloc_Permutation l ix : ix ≡ₚ seq 0 (length l) → iloc l ix ≡ₚ l.
Proof.
  intros Hix. rewrite <- (iloc_seq l) at 2. unfold iloc. by rewrite Hix.
Qed.

Lemma iloc_iloc_seq l ix : iloc l (iloc (seq 0 (length l)) ix) = iloc l ix.
Proof.
  induction ix as [|i ix IH]; [done|].
  rewrite !iloc_cons. destruct (decide (i < length l)%nat) as [Hi|Hi].
  - rewrite lookup_seq_lt by done. rewrite iloc_cons. simpl. by rewrite IH.
  - rewrite lookup_seq_ge, lookup_ge_None_2 by lia. done.
Qed.

(** Reading through the reversed positions is reading the reversed table. *)
Lemma iloc_iloc_reverse_seq l ix :
  iloc l (iloc (reverse (seq 0 (length l))) ix) = iloc (reverse l) ix.
Proof.
  induction ix as [|i ix IH]; [done|].
  rewrite !(iloc_cons _ i). destruct (decide (i < length l)%nat) as [Hi|Hi].
  - rewrite !reverse_lookup by (rewrite ?length_seq; done).
    rewrite length_seq, lookup_seq_lt by lia. rewrite iloc_cons. simpl.
    destruct (l !! (length l - S i)%nat); by rewrite IH.
  - rewrite !lookup_ge_None_2 by (rewrite length_reverse, ?length_seq; lia).
    done.
Qed.
End iloc_facts.

(** The two sample kernels meet the contract of [argsort]. *)
Section insertion_kernels.
Variable v : list Z.
Variable strict : bool.

Let val (i : nat) : Z := default 0 (v !! i).
Let by_value : relation nat := λ i j, val i ≤ val j.

Lemma insert_by_Permutation i l : insert_by v strict i l ≡ₚ i :: l.
Proof.
  induction l as [|j l IH]; [done|]. simpl.
  destruct (if strict then _ else _); [done|].
  rewrite IH. apply Permutation_swap.
Qed.

Lemma insert_by_HdRel j i l :
  by_value j i → HdRel by_value j l → HdRel by_value j (insert_by v strict i l).
Proof.
  intros Hji Hl. destruct l as [|k l]; simpl; [by constructor|].
  destruct (if strict then _ else _); constructor; [done|].
  by inv Hl.
Qed.

Lemma insert_by_Sorted i l :
  Sorted by_value l → Sorted by_value (insert_by v strict i l).
Proof.
  induction 1 as [|j l Hl IH Hhd]; simpl; [by repeat constructor|].
  destruct (if strict then _ else _) eqn:Hcmp.
  - constructor; [by constructor|]. constructor. unfold by_value, val.
    destruct strict; apply bool_decide_eq_true in Hcmp; lia.
  - constructor; [done|]. apply insert_by_HdRel; [|done]. unfold by_value, val.
    destruct strict; apply bool_decide_eq_false in Hcmp; lia.
Qed.

Lemma foldr_insert_by_Permutation (ix : list nat) :
  foldr (insert_by v strict) [] ix ≡ₚ ix.
Proof.
  induction ix as [|i ix IH]; [done|]. simpl.
  by rewrite insert_by_Permutation, IH.
Qed.

Lemma foldr_insert_by_Sorted (ix : list nat) :
  Sorted by_value (foldr (insert_by v strict) [] ix).
Proof.
  induction ix as [|i ix IH]; simpl; [constructor|by apply insert_by_Sorted].
Qed.

Lemma iloc_in_range (ix : list nat) :
  Forall (λ i, (i < length v)%nat) ix → iloc v ix = val <$> ix.
Proof.
  induction 1 as [|i ix Hi _ IH]; [done|].
  rewrite iloc_cons, fmap_cons, IH. unfold val.
  by destruct (lookup_lt_is_Some_2 v i Hi) as [x ->].
Qed.

Lemma insertion_kernel_spec :
  foldr (insert_by v strict) [] (seq 0 (length v)) ≡ₚ seq 0 (length v) ∧
  Sorted Z.le (iloc v (foldr (insert_by v strict) [] (seq 0 (length v)))).
Proof.
  split; [apply foldr_insert_by_Permutation|].
  rewrite iloc_in_range.
  - eapply Sorted_fmap; [|apply foldr_insert_by_Sorted]. done.
  - rewrite foldr_insert_by_Permutation. apply Forall_forall.
    intros i Hi%elem_of_seq. lia.
Qed.
End insertion_kernels.

Lemma argsort_insertion_spec : argsort_spec argsort_insertion.
Proof. intros v. apply insertion_kernel_spec. Qed.

Lemma argsort_rev_ties_spec : argsort_spec argsort_rev_ties.
Proof. intros v. apply insertion_kernel_spec. Qed.

Section sort_values_facts.
Variable argsort : list Z → list nat.
Hypothesis argsort_ok : argsort_spec argsort.

Lemma nargsort_Permutation ascending items :
  nargsort argsort ascending items ≡ₚ seq 0 (length items).
Proof.
  unfold nargsort. destruct ascending.
  - rewrite <- (iloc_seq (seq 0 (length items))) at 2. unfold iloc.
    rewrite (proj1 (argsort_ok items)). by rewrite length_seq.
  - rewrite reverse_Permutation.
    transitivity (reverse (seq 0 (length items))); [|apply reverse_Permutation].
    apply iloc_Permutation.
    rewrite (proj1 (argsort_ok (reverse items))).
    by rewrite !length_reverse, length_seq.
Qed.

Lemma nargsort_ascending items :
  Sorted Z.le (iloc items (nargsort argsort true items)).
Proof. unfold nargsort. rewrite iloc_iloc_seq. apply argsort_ok. Qed.

Lemma nargsort_descending items :
  Sorted (flip Z.le) (iloc items (nargsort argsort false items)).
Proof.
  unfold nargsort. rewrite iloc_reverse, iloc_iloc_reverse_seq.
  apply Sorted_reverse, argsort_ok.
Qed.

Lemma sort_values_Permutation ascending rows :
  sort_values argsort ascending rows ≡ₚ rows.
Proof.
  unfold sort_values. apply iloc_Permutation.
  rewrite nargsort_Permutation. by rewrite length_fmap.
Qed.

Lemma sort_values_ascending rows :
  Sorted Z.le (ProductPerf.total_units_sold <$> sort_values argsort true rows).
Proof. unfold sort_values. rewrite iloc_fmap. apply nargsort_ascending. Qed.

Lemma sort_values_descending rows :
  Sorted (flip Z.le) (ProductPerf.total_units_sold <$> sort_values argsort false rows).
Proof. unfold sort_values. rewrite iloc_fmap. apply nargsort_descending. Qed.
End sort_values_facts.

Lemma sorted_units_unique (R : relation Z) `{!Transitive R, !AntiSymm (=) R}
    (units expected : list Z) :
  Sorted R units → Sorted R expected → units ≡ₚ expected → units = expected.
Proof. apply Sorted_unique; apply _. Qed.

#[local] Instance flip_Zle_trans : Transitive (flip Z.le).
Proof. intros x y z. unfold flip. lia. Qed.

#[local] Instance flip_Zle_antisym : AntiSymm (=) (flip Z.le).
Proof. intros x y. unfold flip. lia. Qed.

(** C5, as the code has it: with any sorting kernel that meets the
    contract of [argsort], the "top 10" chart shows the first ten rows
    of the product table rearranged in descending order of units sold,
    the "bottom 10" chart the first ten in ascending order; units
    [5, 10, 3] come out as [10, 5, 3] and as [3, 5, 10].  The order of
    products with equal units is the kernel's. *)
Theorem product_charts_sorted_by_units
    (argsort : list Z → list nat) (rows : list ProductPerf.row) :
  argsort_spec argsort →
  (∃ rest,
     top10 argsort rows ++ rest ≡ₚ rows ∧
     Sorted (flip Z.le) (ProductPerf.total_units_sold <$> (top10 argsort rows ++ rest)) ∧
     length (top10 argsort rows) = (length rows `min` 10)%nat) ∧
  (∃ rest,
     bottom10 argsort rows ++ rest ≡ₚ rows ∧
     Sorted Z.le (ProductPerf.total_units_sold <$> (bottom10 argsort rows ++ rest)) ∧
     length (bottom10 argsort rows) = (length rows `min` 10)%nat) ∧
  (ProductPerf.total_units_sold <$> rows = [5; 10; 3] →
     ProductPerf.total_units_sold <$> top10 argsort rows = [10; 5; 3] ∧
     ProductPerf.total_units_sold <$> bottom10 argsort rows = [3; 5; 10]).
Proof.
  intros Hspec.
  pose proof (sort_values_Permutation argsort Hspec) as Hperm.
  split_and!.
  - exists (drop 10 (sort_values argsort false rows)). unfold top10.
    rewrite take_drop. split_and!; [apply Hperm|by apply sort_values_descending|].
    rewrite length_take, (Permutation_length (Hperm false rows)). lia.
  - exists (drop 10 (sort_values argsort true rows)). unfold bottom10.
    rewrite take_drop. split_and!; [apply Hperm|by apply sort_values_ascending|].
    rewrite length_take, (Permutation_length (Hperm true rows)). lia.
  - intros Hunits.
    assert (length rows = 3%nat) as Hlen
      by (by rewrite <- (length_fmap ProductPerf.total_units_sold), Hunits).
    unfold top10, bottom10.
    rewrite !take_ge by (rewrite (Permutation_length (Hperm _ rows)); lia).
    split.
    + apply (sorted_units_unique (flip Z.le)).
      * by apply sort_values_descending.
      * repeat constructor; unfold flip; lia.
      * rewrite Hperm, Hunits. apply Permutation_swap.
    + apply (sorted_units_unique Z.le).
      * by apply sort_values_ascending.
      * repeat constructor; lia.
      * rewrite Hperm, Hunits.
        etrans; [apply Permutation_skip, Permutation_swap|apply Permutation_swap].
Qed.

Lemma product_charts_sorted_by_units_witness :
  argsort_spec argsort_insertion ∧
  ProductPerf.total_units_sold <$> three_products = [5; 10; 3] ∧
  ProductPerf.total_units_sold <$> top10 argsort_insertion three_products = [10; 5; 3] ∧
  ProductPerf.total_units_sold <$> bottom10 argsort_insertion three_products = [3; 5; 10].
Proof.
  split; [exact argsort_insertion_spec|]. split; [reflexivity|].
  exact (proj2 (proj2 (product_charts_sorted_by_units argsort_insertion three_products
                         argsort_insertion_spec)) eq_refl).
Defined.

(** C5 as it is worded fails: the sort is not stable.  On a table of
    twenty products whose units go 3, 1, 2, 3, 1, 2, ... both charts
    are in the order of the units, and each of them shows a product
    before another one with the same units that precedes it in the
    product table: p20 before p02 in the "bottom 10" chart, p19 before
    p07 in the "top 10" chart.  (On two tied products both charts keep
    the input order: a table of up to seventeen rows is sorted by
    insertion alone.) *)
Lemma quicksort_reorders_ties :
  Sorted Z.le (ProductPerf.total_units_sold <$> bottom10 argsort_quicksort twenty_products) ∧
  Sorted (flip Z.le)
    (ProductPerf.total_units_sold <$> top10 argsort_quicksort twenty_products) ∧
  ¬ ties_in_input_order twenty_products (bottom10 argsort_quicksort twenty_products) ∧
  ¬ ties_in_input_order twenty_products (top10 argsort_quicksort twenty_products) ∧
  top10 argsort_quicksort tied_products = tied_products ∧
  bottom10 argsort_quicksort tied_products = tied_products.
Proof.
  split; [set (l := _ <$> _); vm_compute in l; subst l; repeat constructor; lia|].
  split; [set (l := _ <$> _); vm_compute in l; subst l;
          repeat constructor; unfold flip; lia|].
  split_and!; [| |by vm_compute..].
  - intros Hties.
    destruct (Hties 0%nat 1%nat (ProductPerf.Row "p20" 1 10) (ProductPerf.Row "p02" 1 10))
      as (i' & j' & Hlt & Hi & Hj); [lia|by vm_compute..|done|].
    unfold twenty_products in Hi, Hj.
    repeat (destruct i' as [|i']; simplify_eq/=);
    repeat (destruct j' as [|j']; simplify_eq/=); lia.
  - intros Hties.
    destruct (Hties 2%nat 3%nat (ProductPerf.Row "p19" 3 30) (ProductPerf.Row "p07" 3 30))
      as (i' & j' & Hlt & Hi & Hj); [lia|by vm_compute..|done|].
    unfold twenty_products in Hi, Hj.
    repeat (destruct i' as [|i']; simplify_eq/=);
    repeat (destruct j' as [|j']; simplify_eq/=); lia.
Qed.

(** * Further properties of the script *)

(** ** The category filter and the KPIs *)

Lemma nunique_le {K : Type} `{EqDecision K} (l1 l2 : list K) :
  (∀ x, x ∈ l1 → x ∈ l2) → (nunique l1 ≤ nunique l2)%nat.
Proof.
  intros Hsub. unfold nunique. apply submseteq_length.
  apply NoDup_submseteq; [apply NoDup_unique|].
  intros x. rewrite !elem_of_unique. apply Hsub.
Qed.

Lemma nunique_NoDup {K : Type} `{EqDecision K} (l : list K) :
  NoDup l → nunique l = length l.
Proof. intros Hl. by apply nunique_eq_length. Qed.

Lemma nunique_le_length {K : Type} `{EqDecision K} (l : list K) :
  (nunique l ≤ length l)%nat.
Proof.
  unfold nunique. apply submseteq_length.
  apply NoDup_submseteq; [apply NoDup_unique|].
  intros x. by rewrite elem_of_unique.
Qed.

Lemma nunique_fmap_le {K J : Type} `{EqDecision K} `{EqDecision J}
    (g : K → J) (l : list K) :
  (nunique (g <$> l) ≤ nunique l)%nat.
Proof.
  unfold nunique. rewrite <- (length_fmap g (unique l)).
  apply submseteq_length, NoDup_submseteq; [apply NoDup_unique|].
  intros y. rewrite elem_of_unique.
  intros (x & -> & Hx)%list_elem_of_fmap.
  apply list_elem_of_fmap_2. by apply elem_of_unique.
Qed.

(** With the default selection, all the categories of the inventory, the
    filter of line 57 keeps every row of the join. *)
Theorem default_filter_keeps_all
    (sales : list (Sales.row DateCell)) (customers : list Customers.row)
    (inventory : list Inventory.row) :
  merged sales customers inventory (category_options inventory) =
  joined sales customers inventory.
Proof.
  unfold merged. apply filter_all, Forall_forall.
  intros m (s & p & c & _ & Hp & _ & _ & _ & ->)%elem_of_joined.
  unfold category_options. rewrite elem_of_unique. simpl.
  by apply list_elem_of_fmap_2.
Qed.

(** Selecting more categories never removes a row: the merged table of
    the smaller selection is a sublist of the one of the larger
    selection, and the order and customer counts do not decrease. *)
Theorem wider_filter_more_rows
    (sales : list (Sales.row DateCell)) (customers : list Customers.row)
    (inventory : list Inventory.row) (narrow wide : list string) :
  narrow ⊆ wide →
  merged sales customers inventory narrow
    `sublist_of` merged sales customers inventory wide ∧
  (total_orders sales customers inventory narrow ≤
   total_orders sales customers inventory wide)%nat ∧
  (total_customers sales customers inventory narrow ≤
   total_customers sales customers inventory wide)%nat.
Proof.
  intros Hsub.
  assert (merged sales customers inventory narrow
            `sublist_of` merged sales customers inventory wide) as Hm.
  { unfold merged.
    rewrite <- (list_filter_filter_l (λ m, Merged.category m ∈ narrow)
                  (λ m, Merged.category m ∈ wide)) by (intros m; apply Hsub).
    apply sublist_filter. }
  split; [done|].
  unfold total_orders, total_customers.
  split; apply nunique_le; intros x.
  - rewrite !elem_of_dropna_fmap. intros (m & Hin & Hx). exists m.
    split; [by eapply elem_of_sublist|done].
  - intros (m & -> & Hin)%list_elem_of_fmap.
    apply list_elem_of_fmap_2. by eapply elem_of_sublist.
Qed.

Lemma wider_filter_more_rows_witness :
  ["tools"] ⊆ ["toys"; "tools"] ∧
  (total_orders march_sales one_customer one_product ["tools"] ≤
   total_orders march_sales one_customer one_product ["toys"; "tools"])%nat.
Proof.
  assert (["tools"] ⊆ ["toys"; "tools"]) as Hsub by set_solver.
  split; [exact Hsub|].
  exact (proj1 (proj2 (wider_filter_more_rows march_sales one_customer one_product
                         ["tools"] ["toys"; "tools"] Hsub))).
Defined.

Lemma filter_key_NoDup {A K : Type} `{EqDecision K} (key : A → K) (k : K) (l : list A) :
  NoDup (key <$> l) → (length (filter (λ x, key x = k) l) ≤ 1)%nat.
Proof.
  induction l as [|x l IH]; [simpl; lia|].
  rewrite fmap_cons. intros [Hx Hl]%NoDup_cons. rewrite filter_cons.
  destruct (decide (key x = k)) as [<-|]; [|by apply IH].
  rewrite filter_none; [simpl; lia|].
  apply Forall_forall. intros y Hy Heq. apply Hx. rewrite <- Heq.
  by apply list_elem_of_fmap_2.
Qed.

Lemma NoDup_fmap_eq {A K : Type} (key : A → K) (l : list A) (x y : A) :
  NoDup (key <$> l) → x ∈ l → y ∈ l → key x = key y → x = y.
Proof.
  induction l as [|z l IH]; [by intros _ ?%elem_of_nil|].
  rewrite fmap_cons. intros [Hz Hl]%NoDup_cons.
  intros [->|Hx]%elem_of_cons [->|Hy]%elem_of_cons Heq; [done| | |by apply IH].
  - destruct Hz. rewrite Heq. by apply list_elem_of_fmap_2.
  - destruct Hz. rewrite <- Heq. by apply list_elem_of_fmap_2.
Qed.

(** With unique keys on the right, one sale gives at most one row. *)
Lemma joined_single_unique_keys (s : Sales.row DateCell) customers inventory :
  NoDup (Inventory.productid <$> inventory) →
  NoDup (Customers.customerid <$> customers) →
  joined [s] customers inventory = [] ∨
  ∃ m, joined [s] customers inventory = [m] ∧
       Merged.transactionid m = Sales.transactionid s.
Proof.
  intros Hp Hc. rewrite joined_single.
  pose proof (filter_key_NoDup Inventory.productid (Sales.productid s) inventory Hp) as Hps.
  pose proof (filter_key_NoDup Customers.customerid (Sales.customerid s) customers Hc) as Hcs.
  destruct (filter _ inventory) as [|p [|??]]; [by left| |simpl in Hps; lia].
  rewrite bind_singleton.
  destruct (filter _ customers) as [|c [|??]]; [by left| |simpl in Hcs; lia].
  right. eexists. split; [done|done].
Qed.

Lemma dropna_sublist {K : Type} (l1 l2 : list (option K)) :
  l1 `sublist_of` l2 → dropna l1 `sublist_of` dropna l2.
Proof.
  unfold dropna. induction 1 as [|[x|] l1 l2 _ IH|[x|] l1 l2 _ IH]; csimpl;
    try done; by constructor.
Qed.

Lemma nunique_dropna {K : Type} `{EqDecision K} (column : list (option K)) :
  NoDup (dropna column) → nunique (dropna column) = count column.
Proof. intros Hnd. unfold count. by apply nunique_NoDup. Qed.

Lemma merged_transactionids sales customers inventory category_filter :
  Forall (λ s : Sales.row DateCell, is_Some (Sales.transactionid s)) sales →
  Forall (λ m, is_Some (Merged.transactionid m))
    (merged sales customers inventory category_filter).
Proof.
  rewrite !Forall_forall. intros Hids m.
  unfold merged. intros [_ Hm]%list_elem_of_filter.
  apply elem_of_joined in Hm as (s & p & c & Hs & _ & _ & _ & _ & ->). simpl.
  by apply Hids.
Qed.

(** When [productid] is unique in the inventory and [customerid] in the
    customers table, the join never repeats a sale: the transaction ids
    of the joined rows are a sublist of those of the sales.  If moreover
    no [transactionid] occurs twice in the sales, every merged row that
    has one is an order of its own: [total_orders] is the number of
    merged rows with a [transactionid], which is the number of merged
    rows when no [transactionid] is NULL. *)
Theorem unique_keys_no_duplication
    (sales : list (Sales.row DateCell)) (customers : list Customers.row)
    (inventory : list Inventory.row) :
  NoDup (Inventory.productid <$> inventory) →
  NoDup (Customers.customerid <$> customers) →
  (Merged.transactionid <$> joined sales customers inventory)
    `sublist_of` (Sales.transactionid <$> sales) ∧
  (length (joined sales customers inventory) ≤ length sales)%nat ∧
  (NoDup (dropna (Sales.transactionid <$> sales)) →
   ∀ category_filter,
     total_orders sales customers inventory category_filter =
       count (Merged.transactionid <$> merged sales customers inventory category_filter) ∧
     (Forall (λ s, is_Some (Sales.transactionid s)) sales →
      total_orders sales customers inventory category_filter =
        length (merged sales customers inventory category_filter))).
Proof.
  intros Hp Hc.
  assert ((Merged.transactionid <$> joined sales customers inventory)
            `sublist_of` (Sales.transactionid <$> sales)) as Hsub.
  { induction sales as [|s sales IH]; [done|].
    change (s :: sales) with ([s] ++ sales) at 1.
    rewrite joined_app, fmap_app, fmap_cons.
    destruct (joined_single_unique_keys s customers inventory Hp Hc)
      as [->|(m & -> & <-)]; simpl.
    - by apply sublist_cons.
    - by apply sublist_skip. }
  split_and!; [done| |].
  - rewrite <- (length_fmap Merged.transactionid), <- (length_fmap Sales.transactionid).
    by apply sublist_length.
  - intros Ht flt.
    assert (total_orders sales customers inventory flt =
            count (Merged.transactionid <$> merged sales customers inventory flt)) as Hcount.
    { unfold total_orders. apply nunique_dropna.
      eapply sublist_NoDup; [exact Ht|]. apply dropna_sublist. etrans; [|exact Hsub].
      unfold merged. apply fmap_sublist, sublist_filter. }
    split; [done|]. intros Hids. rewrite Hcount. apply count_Some.
    by apply merged_transactionids.
Qed.

Lemma unique_keys_no_duplication_witness :
  NoDup (Inventory.productid <$> one_product) ∧
  NoDup (Customers.customerid <$> one_customer) ∧
  NoDup (dropna (Sales.transactionid <$> march_sales)) ∧
  Forall (λ s, is_Some (Sales.transactionid s)) march_sales ∧
  total_orders march_sales one_customer one_product ["tools"] =
    length (merged march_sales one_customer one_product ["tools"]).
Proof.
  assert (NoDup (Inventory.productid <$> one_product)) as Hp by compute_done.
  assert (NoDup (Customers.customerid <$> one_customer)) as Hc by compute_done.
  assert (NoDup (dropna (Sales.transactionid <$> march_sales))) as Ht by compute_done.
  assert (Forall (λ s, is_Some (Sales.transactionid s)) march_sales) as Hids
    by (repeat constructor; by eexists).
  split; [exact Hp|]. split; [exact Hc|]. split; [exact Ht|]. split; [exact Hids|].
  exact (proj2 (proj2 (proj2 (unique_keys_no_duplication march_sales one_customer
                                one_product Hp Hc)) Ht ["tools"]) Hids).
Defined.

Lemma nunique_inj_on {K J : Type} `{EqDecision K} `{EqDecision J}
    (g : K → J) (l : list K) :
  (∀ x y, x ∈ l → y ∈ l → g x = g y → x = y) →
  (nunique l ≤ nunique (g <$> l))%nat.
Proof.
  intros Hinj. unfold nunique. rewrite <- (length_fmap g (unique l)).
  apply submseteq_length, NoDup_submseteq.
  - apply NoDup_fmap_2_strong; [|apply NoDup_unique].
    intros x y Hx Hy. rewrite elem_of_unique in Hx, Hy. by apply Hinj.
  - intros y (x & -> & Hx)%list_elem_of_fmap. rewrite elem_of_unique in Hx.
    rewrite elem_of_unique. by apply list_elem_of_fmap_2.
Qed.

(** Two rows with the same [transactionid], not NULL, are one row when
    no [transactionid] occurs twice. *)
Lemma NoDup_dropna_eq {A K : Type} (key : A → option K) (l : list A) (x y : A) (k : K) :
  NoDup (dropna (key <$> l)) → x ∈ l → y ∈ l → key x = Some k → key y = Some k → x = y.
Proof.
  unfold dropna. induction l as [|z l IH]; [by intros _ ?%elem_of_nil|].
  rewrite fmap_cons. intros Hnd Hx Hy Hkx Hky.
  assert (∀ w, w ∈ l → key w = Some k → k ∈ omap id (key <$> l)) as Hin.
  { intros w Hw Hkw. apply (elem_of_dropna_fmap key l k). eauto. }
  destruct (key z) as [kz|] eqn:Hkz; csimpl in Hnd.
  - apply NoDup_cons in Hnd as [Hz Hnd].
    apply elem_of_cons in Hx as [->|Hx]; apply elem_of_cons in Hy as [->|Hy];
      [done| | |by apply IH].
    + destruct Hz. assert (kz = k) as -> by congruence. by apply (Hin y).
    + destruct Hz. assert (kz = k) as -> by congruence. by apply (Hin x).
  - apply elem_of_cons in Hx as [->|Hx]; [congruence|].
    apply elem_of_cons in Hy as [->|Hy]; [congruence|]. by apply IH.
Qed.

(** When no [transactionid] occurs twice in the sales, the merged rows
    that have one never show more customers than orders; so when no
    [transactionid] is NULL, the merged table never shows more
    customers than orders. *)
Theorem customers_at_most_orders
    (sales : list (Sales.row DateCell)) (customers : list Customers.row)
    (inventory : list Inventory.row) (category_filter : list string) :
  NoDup (dropna (Sales.transactionid <$> sales)) →
  (nunique (Merged.customerid
              <$> filter (λ m, is_Some (Merged.transactionid m))
                    (merged sales customers inventory category_filter)) ≤
   total_orders sales customers inventory category_filter)%nat ∧
  (Forall (λ s, is_Some (Sales.transactionid s)) sales →
   (total_customers sales customers inventory category_filter ≤
    total_orders sales customers inventory category_filter)%nat).
Proof.
  intros Ht.
  set (m := merged sales customers inventory category_filter).
  assert ((nunique (Merged.customerid <$> filter (λ m, is_Some (Merged.transactionid m)) m) ≤
           total_orders sales customers inventory category_filter)%nat) as Hle.
  { unfold total_orders. fold m.
    set (pairs := omap (λ r, t ← Merged.transactionid r; Some (t, Merged.customerid r)) m).
    assert (Merged.customerid <$> filter (λ m, is_Some (Merged.transactionid m)) m
            = snd <$> pairs) as ->.
    { unfold pairs. clear. induction m as [|r m IH]; [done|].
      destruct (Merged.transactionid r) as [t|] eqn:Hr.
      - rewrite filter_cons_True by (rewrite Hr; eauto). csimpl. rewrite Hr. csimpl.
        by f_equal.
      - rewrite filter_cons_False by (rewrite Hr; by intros [??]). csimpl.
        by rewrite Hr. }
    assert (dropna (Merged.transactionid <$> m) = fst <$> pairs) as ->.
    { unfold pairs, dropna. clear. induction m as [|r m IH]; [done|].
      csimpl. destruct (Merged.transactionid r) as [t|]; csimpl; [by f_equal|done]. }
    etrans; [apply nunique_fmap_le|]. apply nunique_inj_on.
    intros [t1 c1] [t2 c2] (r1 & Hin1 & Hr1)%list_elem_of_omap
      (r2 & Hin2 & Hr2)%list_elem_of_omap Heq. simpl in Heq. subst t2.
    destruct (Merged.transactionid r1) as [t|] eqn:Ht1; simplify_eq/=.
    destruct (Merged.transactionid r2) as [t|] eqn:Ht2; simplify_eq/=.
    f_equal.
    unfold m, merged in Hin1, Hin2.
    apply list_elem_of_filter in Hin1
      as [_ (s1 & ? & ? & Hs1 & _ & _ & _ & _ & ->)%elem_of_joined].
    apply list_elem_of_filter in Hin2
      as [_ (s2 & ? & ? & Hs2 & _ & _ & _ & _ & ->)%elem_of_joined].
    simpl in *.
    by rewrite (NoDup_dropna_eq Sales.transactionid sales s1 s2 t1 Ht). }
  split; [exact Hle|]. intros Hids. unfold total_customers. fold m.
  rewrite filter_all in Hle; [done|]. by apply merged_transactionids.
Qed.

Lemma customers_at_most_orders_witness :
  NoDup (dropna (Sales.transactionid <$> march_sales)) ∧
  Forall (λ s, is_Some (Sales.transactionid s)) march_sales ∧
  (total_customers march_sales one_customer one_product ["tools"] ≤
   total_orders march_sales one_customer one_product ["tools"])%nat.
Proof.
  assert (NoDup (dropna (Sales.transactionid <$> march_sales))) as Ht by compute_done.
  assert (Forall (λ s, is_Some (Sales.transactionid s)) march_sales) as Hids
    by (repeat constructor; by eexists).
  split; [exact Ht|]. split; [exact Hids|].
  exact (proj2 (customers_at_most_orders march_sales one_customer one_product ["tools"] Ht)
           Hids).
Defined.

Lemma nunique_same_elements {K : Type} `{EqDecision K} (l1 l2 : list K) :
  (∀ x, x ∈ l1 ↔ x ∈ l2) → nunique l1 = nunique l2.
Proof.
  intros Hel. apply nunique_eq_length; [apply NoDup_unique|].
  intros x. by rewrite elem_of_unique.
Qed.

Lemma merge_right_app {L R M K : Type} `{EqDecision K}
    (lkey : L → K) (rkey : R → K) (pair : L → R → M) (l : list L) (r1 r2 : list R) :
  merge lkey rkey pair l (r1 ++ r2) ≡ₚ merge lkey rkey pair l r1 ++ merge lkey rkey pair l r2.
Proof.
  induction l as [|a l IH]; [done|].
  change (a :: l) with ([a] ++ l). rewrite !merge_app, IH.
  assert (merge lkey rkey pair [a] (r1 ++ r2) =
          merge lkey rkey pair [a] r1 ++ merge lkey rkey pair [a] r2) as ->.
  { unfold merge. rewrite !bind_singleton. by rewrite filter_app, fmap_app. }
  rewrite <- !(assoc (++)). apply Permutation_app_head.
  rewrite !(assoc (++)). apply Permutation_app_tail, Permutation_app_comm.
Qed.

Lemma merge_Permutation_left {L R M K : Type} `{EqDecision K}
    (lkey : L → K) (rkey : R → K) (pair : L → R → M) (l l' : list L) (r : list R) :
  l ≡ₚ l' → merge lkey rkey pair l r ≡ₚ merge lkey rkey pair l' r.
Proof. intros Hl. unfold merge. by rewrite Hl. Qed.

Lemma joined_inventory_app (sales : list (Sales.row DateCell)) customers inventory1 inventory2 :
  joined sales customers (inventory1 ++ inventory2) ≡ₚ
  joined sales customers inventory1 ++ joined sales customers inventory2.
Proof.
  unfold joined, with_customer.
  rewrite (merge_Permutation_left _ _ _ _ _ _
             (merge_right_app Sales.productid Inventory.productid with_inventory
                sales inventory1 inventory2)).
  by rewrite merge_app.
Qed.

(** More sales add their merged rows to the others, and so do more
    inventory rows; an inventory that lists every product twice gives
    every merged row twice, while the counts of orders and of customers
    stay as they are. *)
Theorem merged_additive
    (sales1 sales2 : list (Sales.row DateCell)) (customers : list Customers.row)
    (inventory1 inventory2 : list Inventory.row) (category_filter : list string) :
  merged (sales1 ++ sales2) customers inventory1 category_filter ≡ₚ
    merged sales1 customers inventory1 category_filter ++
    merged sales2 customers inventory1 category_filter ∧
  merged sales1 customers (inventory1 ++ inventory2) category_filter ≡ₚ
    merged sales1 customers inventory1 category_filter ++
    merged sales1 customers inventory2 category_filter ∧
  length (merged sales1 customers (inventory1 ++ inventory1) category_filter) =
    (2 * length (merged sales1 customers inventory1 category_filter))%nat ∧
  total_orders sales1 customers (inventory1 ++ inventory1) category_filter =
    total_orders sales1 customers inventory1 category_filter ∧
  total_customers sales1 customers (inventory1 ++ inventory1) category_filter =
    total_customers sales1 customers inventory1 category_filter.
Proof.
  assert (∀ i1 i2,
    merged sales1 customers (i1 ++ i2) category_filter ≡ₚ
    merged sales1 customers i1 category_filter ++
    merged sales1 customers i2 category_filter) as Hinv.
  { intros i1 i2. unfold merged. by rewrite joined_inventory_app, filter_app. }
  assert (∀ m, m ∈ merged sales1 customers (inventory1 ++ inventory1) category_filter ↔
               m ∈ merged sales1 customers inventory1 category_filter) as Hel.
  { intros m. rewrite (Hinv inventory1 inventory1), elem_of_app. tauto. }
  split_and!.
  - unfold merged. by rewrite joined_app, filter_app.
  - apply Hinv.
  - rewrite (Permutation_length (Hinv inventory1 inventory1)), length_app. lia.
  - unfold total_orders. apply nunique_same_elements. intros t.
    rewrite !elem_of_dropna_fmap. by setoid_rewrite Hel.
  - unfold total_customers. apply nunique_same_elements. intros c.
    rewrite !list_elem_of_fmap. by setoid_rewrite Hel.
Qed.
(** ** The product table and the customer aggregate *)

(** The product table has one row for each product name of the merged
    table, in strictly ascending order of the name; a name is in it
    exactly when an inventory row of that name and of a selected
    category has a sale to a customer of the customers table. *)
Theorem product_perf_rows
    (sales : list (Sales.row DateCell)) (customers : list Customers.row)
    (inventory : list Inventory.row) (category_filter : list string) :
  let m := merged sales customers inventory category_filter in
  StronglySorted (strict String.le) (ProductPerf.productname <$> product_perf m) ∧
  length (product_perf m) = nunique (Merged.productname <$> m) ∧
  (∀ name, name ∈ ProductPerf.productname <$> product_perf m ↔
           name ∈ Merged.productname <$> m) ∧
  (∀ name, name ∈ ProductPerf.productname <$> product_perf m ↔
     ∃ s p c, s ∈ sales ∧ p ∈ inventory ∧ c ∈ customers ∧
       Inventory.productid p = Sales.productid s ∧
       Customers.customerid c = Sales.customerid s ∧
       Inventory.productname p = name ∧
       Inventory.category p ∈ category_filter).
Proof.
  intros m.
  assert (ProductPerf.productname <$> product_perf m =
          (groupby String.le Merged.productname m).*1) as Hnames.
  { unfold product_perf. rewrite <- list_fmap_compose.
    apply list_fmap_ext. by intros ? [k g]. }
  assert (∀ name, name ∈ ProductPerf.productname <$> product_perf m ↔
                  name ∈ Merged.productname <$> m) as Hel.
  { intros name. by rewrite Hnames, groupby_keys_perm, elem_of_unique. }
  split_and!.
  - rewrite Hnames. apply StronglySorted_strict; [apply _| |apply groupby_keys_NoDup].
    apply groupby_keys_sorted; apply _.
  - rewrite <- (length_fmap ProductPerf.productname), Hnames.
    by rewrite groupby_keys_perm.
  - exact Hel.
  - intros name. rewrite Hel, list_elem_of_fmap. unfold m, merged. split.
    + intros (r & -> & [Hcat Hr]%list_elem_of_filter).
      apply elem_of_joined in Hr as (s & p & c & Hs & Hp & Hc & Hkp & Hkc & ->).
      exists s, p, c. done.
    + intros (s & p & c & Hs & Hp & Hc & Hkp & Hkc & <- & Hcat).
      exists (with_customer (with_inventory s p) c). split; [done|].
      apply list_elem_of_filter. split; [done|].
      apply elem_of_joined. exists s, p, c. done.
Qed.

Lemma StronglySorted_weaken {A : Type} (R1 R2 : relation A) (l : list A) :
  (∀ x y, R1 x y → R2 x y) → StronglySorted R1 l → StronglySorted R2 l.
Proof.
  intros HR. induction 1 as [|x l _ IH Hx]; constructor; [done|].
  eapply Forall_impl; [exact Hx|]. intros y. apply HR.
Qed.

Lemma cust_seg_fmap {B : Type} (h : CustSeg.row → B)
    (h' : Z * list Merged.row → B) (merged : list Merged.row) :
  (∀ c m g,
     h {| CustSeg.customerid := c;
          CustSeg.total_orders := count (Merged.transactionid <$> m :: g);
          CustSeg.total_spent :=
            Zsum ((λ m, Merged.price_x m * Merged.quantitypurchased m) <$> m :: g);
          CustSeg.age := Merged.age m;
          CustSeg.gender := Merged.gender m;
          CustSeg.location := Merged.location m |} = h' (c, m :: g)) →
  h <$> cust_seg merged = h' <$> groupby Z.le Merged.customerid merged.
Proof.
  intros Hh. unfold cust_seg.
  assert (Forall (λ kg, kg.2 ≠ []) (groupby Z.le Merged.customerid merged)) as Hne.
  { apply Forall_forall. intros [k g]. apply groupby_nonempty. }
  induction Hne as [|[c g] gs Hg _ IH]; [done|].
  simpl in Hg. destruct g as [|m g]; [done|]. csimpl.
  f_equal; [apply Hh|apply IH].
Qed.

(** The cells of a column that are not NULL, counted one by one. *)
Lemma count_Zsum {A K : Type} (f : A → option K) (l : list A) :
  Z.of_nat (count (f <$> l)) =
  Zsum ((λ a, match f a with Some _ => 1 | None => 0 end) <$> l).
Proof.
  unfold count, dropna. induction l as [|a l IH]; [done|].
  rewrite !fmap_cons. change (Zsum (?y :: ?k)) with (y + Zsum k). rewrite <- IH.
  csimpl. destruct (f a); simpl length; lia.
Qed.

(** The customer aggregate has one row for each customer of the merged
    table, as many rows as the KPI counts customers, in strictly
    ascending order of [customerid]; the order counts add up to the
    number of merged rows that have a [transactionid], and when no
    [transactionid] of the sales is NULL every row counts at least one
    order. *)
Theorem cust_seg_rows
    (sales : list (Sales.row DateCell)) (customers : list Customers.row)
    (inventory : list Inventory.row) (category_filter : list string) :
  let m := merged sales customers inventory category_filter in
  length (cust_seg m) = total_customers sales customers inventory category_filter ∧
  StronglySorted Z.lt (CustSeg.customerid <$> cust_seg m) ∧
  Zsum ((λ r, Z.of_nat (CustSeg.total_orders r)) <$> cust_seg m) =
    Z.of_nat (count (Merged.transactionid <$> m)) ∧
  (Forall (λ s, is_Some (Sales.transactionid s)) sales →
   Forall (λ r, (1 ≤ CustSeg.total_orders r)%nat) (cust_seg m)).
Proof.
  intros m. split_and!.
  - rewrite <- (length_fmap CustSeg.customerid), cust_seg_customerids.
    rewrite groupby_keys_perm. done.
  - rewrite cust_seg_customerids.
    apply (StronglySorted_weaken (strict Z.le)); [intros x y [Hle Hnle]; lia|].
    apply StronglySorted_strict; [apply _| |apply groupby_keys_NoDup].
    apply groupby_keys_sorted; apply _.
  - rewrite (cust_seg_fmap _ (λ kg, Z.of_nat (count (Merged.transactionid <$> kg.2))))
      by done.
    rewrite count_Zsum.
    rewrite <- (Zsum_groupby Z.le Merged.customerid _ m).
    f_equal. apply list_fmap_ext. intros _ [k g] _. simpl. apply count_Zsum.
  - intros Hids. apply Forall_forall. intros r Hr.
    assert (CustSeg.total_orders r ∈ CustSeg.total_orders <$> cust_seg m) as Hin
      by (by apply list_elem_of_fmap_2).
    rewrite (cust_seg_fmap _ (λ kg, count (Merged.transactionid <$> kg.2))) in Hin by done.
    apply list_elem_of_fmap in Hin as ([k g] & -> & Hg). simpl.
    pose proof (groupby_nonempty _ _ _ _ _ Hg) as Hne.
    apply elem_of_groupby in Hg as [_ ->].
    rewrite count_Some.
    + destruct (filter _ m); [done|simpl; lia].
    + apply Forall_forall. intros x [_ Hx]%list_elem_of_filter.
      by apply (proj1 (Forall_forall _ _)
                  (merged_transactionids sales customers inventory category_filter Hids)).
Qed.

Lemma cust_seg_rows_witness :
  Forall (λ s, is_Some (Sales.transactionid s)) march_sales ∧
  Forall (λ r, (1 ≤ CustSeg.total_orders r)%nat)
    (cust_seg (merged march_sales one_customer one_product ["tools"])).
Proof.
  assert (Forall (λ s, is_Some (Sales.transactionid s)) march_sales) as Hids
    by (repeat constructor; by eexists).
  split; [exact Hids|].
  exact (proj2 (proj2 (proj2 (cust_seg_rows march_sales one_customer one_product
                                ["tools"]))) Hids).
Defined.

(** The age, gender and location of a row of the customer aggregate are
    those of a row of the customers table with the same [customerid];
    when [customerid] is unique there, they are the customer's own. *)
Theorem cust_seg_demographics
    (sales : list (Sales.row DateCell)) (customers : list Customers.row)
    (inventory : list Inventory.row) (category_filter : list string)
    (r : CustSeg.row) :
  r ∈ cust_seg (merged sales customers inventory category_filter) →
  (∃ c, c ∈ customers ∧ Customers.customerid c = CustSeg.customerid r ∧
        CustSeg.age r = Customers.age c ∧
        CustSeg.gender r = Customers.gender c ∧
        CustSeg.location r = Customers.location c) ∧
  (NoDup (Customers.customerid <$> customers) →
   ∀ c, c ∈ customers → Customers.customerid c = CustSeg.customerid r →
        CustSeg.age r = Customers.age c ∧
        CustSeg.gender r = Customers.gender c ∧
        CustSeg.location r = Customers.location c).
Proof.
  unfold cust_seg. intros ([k g] & Hg & Hr)%list_elem_of_omap.
  apply elem_of_groupby in Hg as [_ ->].
  destruct (filter _ _) as [|m0 g] eqn:Hfilter; [done|].
  assert (m0 ∈ filter (λ a, Merged.customerid a = k)
                 (merged sales customers inventory category_filter)) as Hm0
    by (rewrite Hfilter; left).
  simpl in Hr. injection Hr as <-. simpl.
  apply list_elem_of_filter in Hm0 as [<- Hm0]. unfold merged in Hm0.
  apply list_elem_of_filter in Hm0
    as [_ (s & p & c & _ & _ & Hc & _ & Hkc & ->)%elem_of_joined].
  simpl. split; [by exists c|].
  intros Hnd c' Hc' Hk'.
  by rewrite (NoDup_fmap_eq Customers.customerid customers c' c Hnd Hc' Hc)
    by congruence.
Qed.

Lemma cust_seg_demographics_witness :
  CustSeg.Row 7 2 25 30 "F" "Pune"
    ∈ cust_seg (merged march_sales one_customer one_product ["tools"]) ∧
  ∃ c, c ∈ one_customer ∧ Customers.customerid c = 7 ∧
       30 = Customers.age c ∧ "F" = Customers.gender c ∧ "Pune" = Customers.location c.
Proof.
  assert (CustSeg.Row 7 2 25 30 "F" "Pune"
            ∈ cust_seg (merged march_sales one_customer one_product ["tools"])) as Hin
    by (vm_compute; left).
  split; [exact Hin|].
  exact (proj1 (cust_seg_demographics march_sales one_customer one_product ["tools"]
                  _ Hin)).
Defined.

(** ** Segments by frequency and their sizes *)

Lemma Zsum_ones {A : Type} (l : list A) : Zsum ((λ _, 1) <$> l) = Z.of_nat (length l).
Proof. rewrite (Zsum_const _ 1); [lia|]. by apply Forall_forall. Qed.

Lemma Zsum_Permutation (l1 l2 : list Z) : l1 ≡ₚ l2 → Zsum l1 = Zsum l2.
Proof.
  induction 1 as [|x l1 l2 _ IH|x y l|l1 l2 l3 _ IH1 _ IH2]; unfold Zsum in *; simpl; lia.
Qed.

Lemma customer_segments_customerids {D : Type} (sales : list (Sales.row D)) :
  Segments.customerid <$> customer_segments sales =
  (groupby Z.le Sales.customerid sales).*1.
Proof.
  unfold customer_segments. rewrite <- list_fmap_compose.
  apply list_fmap_ext. by intros ? [c g].
Qed.

(** The segmentation has one row for each customer of the raw sales, in
    strictly ascending order of [customerid], and its order counts add up
    to the number of sales that have a [transactionid]: each of them is
    counted once, and a sale without one is counted for nobody. *)
Theorem customer_segments_rows {D : Type} (sales : list (Sales.row D)) :
  StronglySorted Z.lt (Segments.customerid <$> customer_segments sales) ∧
  length (customer_segments sales) = nunique (Sales.customerid <$> sales) ∧
  Zsum (Segments.total_orders <$> customer_segments sales) =
    Z.of_nat (count (Sales.transactionid <$> sales)).
Proof.
  split_and!.
  - rewrite customer_segments_customerids.
    apply (StronglySorted_weaken (strict Z.le)); [intros x y [Hle Hnle]; lia|].
    apply StronglySorted_strict; [apply _| |apply groupby_keys_NoDup].
    apply groupby_keys_sorted; apply _.
  - rewrite <- (length_fmap Segments.customerid), customer_segments_customerids.
    by rewrite groupby_keys_perm.
  - unfold customer_segments. rewrite <- list_fmap_compose, count_Zsum.
    rewrite <- (Zsum_groupby Z.le Sales.customerid _ sales).
    f_equal. apply list_fmap_ext. intros _ [k g] _. simpl. apply count_Zsum.
Qed.

Lemma zip_fmap_self {A B : Type} (f : A → B) (l : list A) :
  zip l (f <$> l) = (λ x, (x, f x)) <$> l.
Proof. induction l as [|x l IH]; [done|]. csimpl. by rewrite IH. Qed.

(** [value_counts] lists every distinct value once with the number of its
    occurrences, in descending order of that number. *)
Lemma value_counts_spec (argsort : list Z → list nat) (column : list string) :
  argsort_spec argsort →
  value_counts argsort column ≡ₚ
    (λ k, (k, Z.of_nat (length (filter (λ x, x = k) column)))) <$> unique column ∧
  Sorted (flip Z.le) (value_counts argsort column).*2.
Proof.
  intros Hspec. unfold value_counts.
  set (counts := (λ k, Z.of_nat (length (filter (λ x, x = k) column))) <$> unique column).
  split.
  - rewrite <- zip_fmap_self. fold counts. apply iloc_Permutation.
    rewrite nargsort_Permutation by done.
    unfold counts. by rewrite length_zip, !length_fmap, Nat.min_id.
  - rewrite iloc_fmap, snd_zip by (unfold counts; by rewrite length_fmap).
    by apply nargsort_descending.
Qed.

Lemma customer_segment_of_order (n : Z) :
  1 ≤ n → customer_segment n ∈ ["Low"; "Medium"; "High"].
Proof.
  intros Hn. unfold customer_segment. repeat case_decide; try lia; set_solver.
Qed.

Lemma customer_segment_label (n : Z) :
  customer_segment n ∈ ["Inactive"; "Low"; "Medium"; "High"].
Proof. unfold customer_segment. repeat case_decide; set_solver. Qed.

(** The [segment_counts] table of the bar chart: with any sorting kernel
    that meets the contract of [argsort], it names each segment at most
    once, out of "Inactive", "Low", "Medium" and "High" (so at most four
    rows); the count of a segment is the number of customers classified
    in it and is at least 1; the counts come in descending order and
    add up to the number of customers of the segmentation.  When no
    [transactionid] of the sales is NULL, "Inactive" is not among the
    segments, and the table has at most three rows. *)
Theorem segment_counts_spec {D : Type}
    (argsort : list Z → list nat) (sales : list (Sales.row D)) :
  argsort_spec argsort →
  let table := segment_counts argsort (customer_segments sales) in
  NoDup (SegmentCounts.Segment <$> table) ∧
  (length table ≤ 4)%nat ∧
  (∀ row, row ∈ table →
     SegmentCounts.Segment row ∈ ["Inactive"; "Low"; "Medium"; "High"] ∧
     1 ≤ SegmentCounts.Count row ∧
     SegmentCounts.Count row =
       Z.of_nat (length (filter (λ r, Segments.customer_segment r = SegmentCounts.Segment row)
                           (customer_segments sales)))) ∧
  Sorted (flip Z.le) (SegmentCounts.Count <$> table) ∧
  Zsum (SegmentCounts.Count <$> table) = Z.of_nat (length (customer_segments sales)) ∧
  (Forall (λ s, is_Some (Sales.transactionid s)) sales →
   (length table ≤ 3)%nat ∧
   ∀ row, row ∈ table → SegmentCounts.Segment row ∈ ["Low"; "Medium"; "High"]).
Proof.
  intros Hspec table.
  set (column := Segments.customer_segment <$> customer_segments sales).
  destruct (value_counts_spec argsort column Hspec) as [Hperm Hsorted].
  assert (SegmentCounts.Segment <$> table = (value_counts argsort column).*1) as Hseg.
  { unfold table, segment_counts. rewrite <- list_fmap_compose.
    apply list_fmap_ext. by intros ? [k n]. }
  assert (SegmentCounts.Count <$> table = (value_counts argsort column).*2) as Hcnt.
  { unfold table, segment_counts. rewrite <- list_fmap_compose.
    apply list_fmap_ext. by intros ? [k n]. }
  assert ((value_counts argsort column).*1 ≡ₚ unique column) as Hkeys.
  { rewrite Hperm, <- list_fmap_compose. by rewrite list_fmap_id. }
  assert (∀ k, k ∈ column → k ∈ ["Inactive"; "Low"; "Medium"; "High"]) as Hlabels.
  { intros k (r & -> & (g & Hc & -> & Hn & ->)%elem_of_customer_segments)%list_elem_of_fmap.
    apply customer_segment_label. }
  assert (Forall (λ s, is_Some (Sales.transactionid s)) sales →
          ∀ k, k ∈ column → k ∈ ["Low"; "Medium"; "High"]) as Hordered.
  { intros Hids k
      (r & -> & (g & Hc & -> & Hn & ->)%elem_of_customer_segments)%list_elem_of_fmap.
    apply customer_segment_of_order. rewrite count_Some.
    - apply list_elem_of_fmap in Hc as (s & Hk & Hs).
      assert (s ∈ filter (λ s, Sales.customerid s = Segments.customerid r) sales) as Hin
        by (by apply list_elem_of_filter).
      destruct (filter _ sales); [by apply elem_of_nil in Hin|simpl; lia].
    - rewrite Forall_forall in Hids. apply Forall_forall.
      intros s [_ Hin]%list_elem_of_filter. by apply Hids. }
  assert (NoDup (SegmentCounts.Segment <$> table)) as Hnd
    by (rewrite Hseg, Hkeys; apply NoDup_unique).
  split_and!.
  - exact Hnd.
  - rewrite <- (length_fmap SegmentCounts.Segment).
    change 4%nat with (length ["Inactive"; "Low"; "Medium"; "High"]).
    apply submseteq_length, NoDup_submseteq; [done|].
    intros k. rewrite Hseg, Hkeys, elem_of_unique. apply Hlabels.
  - intros [k n] Hrow. simpl.
    assert ((k, n) ∈ value_counts argsort column) as Hin.
    { unfold table, segment_counts in Hrow.
      apply list_elem_of_fmap in Hrow as ([k' n'] & [= -> ->] & Hin). done. }
    rewrite Hperm in Hin.
    apply list_elem_of_fmap in Hin as (k' & [= -> ->] & Hk).
    rewrite elem_of_unique in Hk.
    assert (length (filter (λ x, x = k') column) =
            length (filter (λ r, Segments.customer_segment r = k') (customer_segments sales)))
      as Hlen.
    { unfold column. generalize (customer_segments sales). intros l.
      induction l as [|r l IHl]; [done|].
      rewrite fmap_cons, !filter_cons.
      destruct (decide (Segments.customer_segment r = k')); simpl; by rewrite IHl. }
    split_and!; [by apply Hlabels| |by rewrite Hlen].
    assert (k' ∈ filter (λ x, x = k') column) as Hk'
      by (by apply list_elem_of_filter).
    destruct (filter (λ x, x = k') column); [by apply elem_of_nil in Hk'|simpl; lia].
  - by rewrite Hcnt.
  - rewrite Hcnt, (Zsum_Permutation _ _ (fmap_Permutation snd _ _ Hperm)).
    rewrite <- list_fmap_compose.
    rewrite <- (length_fmap Segments.customer_segment). fold column.
    rewrite <- Zsum_ones.
    rewrite <- (Zsum_by_key id (λ _, 1) (unique column) column).
    + f_equal. apply list_fmap_ext. intros _ k _. simpl. by rewrite Zsum_ones.
    + apply NoDup_unique.
    + apply Forall_forall. intros x Hx. by apply elem_of_unique.
  - intros Hids. split.
    + rewrite <- (length_fmap SegmentCounts.Segment).
      change 3%nat with (length ["Low"; "Medium"; "High"]).
      apply submseteq_length, NoDup_submseteq; [done|].
      intros k. rewrite Hseg, Hkeys, elem_of_unique. by apply Hordered.
    + intros row Hrow. apply Hordered; [done|].
      rewrite <- elem_of_unique, <- Hkeys, <- Hseg. by apply list_elem_of_fmap_2.
Qed.

Lemma segment_counts_spec_witness :
  argsort_spec argsort_insertion ∧
  Forall (λ s, is_Some (Sales.transactionid s)) march_sales ∧
  segment_counts argsort_insertion (customer_segments march_sales) =
    [SegmentCounts.Row "Low" 1] ∧
  segment_counts argsort_insertion (customer_segments null_id_sales) =
    [SegmentCounts.Row "Inactive" 1; SegmentCounts.Row "Low" 1] ∧
  (length (segment_counts argsort_insertion (customer_segments march_sales)) ≤ 3)%nat.
Proof.
  assert (Forall (λ s, is_Some (Sales.transactionid s)) march_sales) as Hids
    by (repeat constructor; by eexists).
  split; [exact argsort_insertion_spec|]. split; [exact Hids|].
  split; [reflexivity|]. split; [reflexivity|].
  exact (proj1 (proj2 (proj2 (proj2 (proj2 (proj2
    (segment_counts_spec argsort_insertion march_sales argsort_insertion_spec))))) Hids)).
Defined.

(** ** Active days, loyalty and the order counts *)

(** The keys of the groups, and what an aggregate reads in a column of
    each group, depend on the key column and on that column alone. *)
Lemma groupby_column {A B K C X : Type} `{EqDecision K} (le : relation K)
    `{∀ x y, Decision (le x y)} (key : A → K) (key' : B → K)
    (col : A → C) (col' : B → C) (agg : list C → X)
    (rows : list A) (rows' : list B) :
  (λ a, (key a, col a)) <$> rows = (λ b, (key' b, col' b)) <$> rows' →
  (λ kg, (kg.1, agg (col <$> kg.2))) <$> groupby le key rows =
  (λ kg, (kg.1, agg (col' <$> kg.2))) <$> groupby le key' rows'.
Proof.
  intros Hcols.
  assert (key <$> rows = key' <$> rows') as Hkeys.
  { apply (f_equal (fmap fst)) in Hcols. by rewrite <- !list_fmap_compose in Hcols. }
  assert (∀ k, col <$> filter (λ a, key a = k) rows =
               col' <$> filter (λ b, key' b = k) rows') as Hgroup.
  { intros k. clear Hkeys. revert rows' Hcols.
    induction rows as [|a rows IH]; intros [|b rows'] Hcols; simplify_eq/=; [done|].
    rewrite !filter_cons. destruct (decide (key a = k)) as [Hk|Hk].
    - rewrite decide_True by congruence. rewrite !fmap_cons. f_equal; [done|by apply IH].
    - rewrite decide_False by congruence. by apply IH. }
  unfold groupby. rewrite <- !list_fmap_compose, Hkeys.
  apply list_fmap_ext. intros _ k _. simpl. by rewrite Hgroup.
Qed.

Lemma to_datetime_columns parse sales s :
  to_datetime parse sales = Some s →
  (λ r, (Sales.customerid r, Sales.transactionid r)) <$> s =
  (λ r, (Sales.customerid r, Sales.transactionid r)) <$> sales.
Proof.
  unfold to_datetime. intros H%mapM_Some.
  induction H as [|r r' sales s Hr _ IH]; [done|].
  rewrite !fmap_cons, IH. f_equal.
  destruct (match Sales.transactiondate r with
            | Stamp t => Some t | Text x => parse x end);
    simplify_eq/=. done.
Qed.

(** When the dates convert, the loyalty table lists the customers of the
    segmentation with the same order counts; a customer never has more
    active days than sales, so when no [transactionid] is NULL never
    more active days than orders. *)
Theorem loyalty_orders_and_days
    (parse : string → option Timestamp)
    (sales : list (Sales.row DateCell)) (t : list Loyalty.row) :
  loyalty_repeat parse sales = Some t →
  (λ r, (Loyalty.customerid r, Z.of_nat (Loyalty.total_orders r))) <$> t =
    (λ r, (Segments.customerid r, Segments.total_orders r)) <$> customer_segments sales ∧
  Forall (λ r, (Loyalty.days_active r ≤
                length (filter (λ s, Sales.customerid s = Loyalty.customerid r) sales))%nat) t ∧
  (Forall (λ s, is_Some (Sales.transactionid s)) sales →
   Forall (λ r, (Loyalty.days_active r ≤ Loyalty.total_orders r)%nat) t).
Proof.
  unfold loyalty_repeat.
  destruct (to_datetime parse sales) as [s|] eqn:Hs; [|done]. intros [= <-].
  pose proof (to_datetime_columns parse sales s Hs) as Hcols.
  assert (∀ k, length (filter (λ r, Sales.customerid r = k) s) =
               length (filter (λ r, Sales.customerid r = k) sales)) as Hsize.
  { intros k. clear Hs. revert sales Hcols.
    induction s as [|a s IH]; intros [|b sales] Hcols; simplify_eq/=; [done|].
    rewrite !filter_cons. destruct (decide (Sales.customerid a = k)) as [Hk|Hk].
    - rewrite decide_True by congruence. simpl. f_equal. by apply IH.
    - rewrite decide_False by congruence. by apply IH. }
  split_and!.
  - unfold customer_segments. rewrite <- !list_fmap_compose.
    pose proof (groupby_column Z.le Sales.customerid Sales.customerid
                  Sales.transactionid Sales.transactionid
                  (λ column, Z.of_nat (count column)) s sales Hcols) as Hg.
    etrans; [|etrans; [exact Hg|]]; apply list_fmap_ext; by intros _ [k g] _.
  - apply Forall_fmap, Forall_forall. intros [k g] [_ ->]%elem_of_groupby. simpl.
    rewrite <- Hsize. unfold date_nunique. etrans; [apply nunique_le_length|].
    by rewrite length_fmap.
  - intros Hids.
    assert (Forall (λ r, is_Some (Sales.transactionid r)) s) as Hids'.
    { clear Hs Hsize. revert sales Hcols Hids.
      induction s as [|a s IH]; intros [|b sales] Hcols Hids; simplify_eq/=;
        [constructor|].
      apply Forall_cons in Hids as [Hb Hids]. constructor; [congruence|by eapply IH]. }
    apply Forall_fmap, Forall_forall. intros [k g] [_ ->]%elem_of_groupby. simpl.
    rewrite count_Some.
    + unfold date_nunique. etrans; [apply nunique_le_length|]. by rewrite length_fmap.
    + rewrite Forall_forall in Hids'. apply Forall_forall.
      intros r [_ Hr]%list_elem_of_filter. by apply Hids'.
Qed.

Lemma loyalty_orders_and_days_witness :
  loyalty_repeat no_parse march_sales = Some [Loyalty.Row 7 2 2] ∧
  Forall (λ s, is_Some (Sales.transactionid s)) march_sales ∧
  Forall (λ r, (Loyalty.days_active r ≤ Loyalty.total_orders r)%nat) [Loyalty.Row 7 2 2].
Proof.
  assert (loyalty_repeat no_parse march_sales = Some [Loyalty.Row 7 2 2]) as Ht
    by reflexivity.
  assert (Forall (λ s, is_Some (Sales.transactionid s)) march_sales) as Hids
    by (repeat constructor; by eexists).
  split; [exact Ht|]. split; [exact Hids|].
  exact (proj2 (proj2 (loyalty_orders_and_days no_parse march_sales _ Ht)) Hids).
Defined.

Lemma StronglySorted_sublist {A : Type} (R : relation A) (l1 l2 : list A) :
  l1 `sublist_of` l2 → StronglySorted R l2 → StronglySorted R l1.
Proof.
  induction 1 as [|x l1 l2 Hsub IH|x l1 l2 Hsub IH]; [done| |].
  - intros [Hl2 Hx]%StronglySorted_inv. constructor; [by apply IH|].
    rewrite Forall_forall in Hx. apply Forall_forall.
    intros y Hy. apply Hx. by eapply elem_of_sublist.
  - intros [Hl2 _]%StronglySorted_inv. by apply IH.
Qed.

Lemma as_cells_customerids (s : list (Sales.row Timestamp)) :
  Sales.customerid <$> as_cells s = Sales.customerid <$> s.
Proof. unfold as_cells. rewrite <- list_fmap_compose. by apply list_fmap_ext. Qed.

Lemma filter_as_cells (s : list (Sales.row Timestamp)) (c : Z) :
  length (filter (λ x, Sales.customerid x = c) (as_cells s)) =
  length (filter (λ x, Sales.customerid x = c) s).
Proof.
  unfold as_cells. induction s as [|r s IH]; [done|].
  rewrite fmap_cons, !filter_cons. destruct r as [? ? k ? ? ?]. simpl.
  destruct (decide (k = c)); simpl; by rewrite IH.
Qed.

(** Every repeat customer is a customer of the segmentation, with at
    least two active days and at least as many sales as active days;
    when no [transactionid] is NULL the segmentation counts at least
    two orders for such a customer, and at least as many orders as
    active days.  The repeat customers come in strictly ascending order
    of [customerid]. *)
Theorem repeat_customers_have_two_orders
    (sales : list (Sales.row DateCell)) (rc : list ActiveDays.row) :
  repeat_customers sales = Some rc →
  StronglySorted Z.lt (ActiveDays.customerid <$> rc) ∧
  ∀ row, row ∈ rc →
    ∃ r, r ∈ customer_segments sales ∧
         Segments.customerid r = ActiveDays.customerid row ∧
         (2 ≤ ActiveDays.active_days row ≤
          length (filter (λ s, Sales.customerid s = ActiveDays.customerid row) sales))%nat ∧
         (Forall (λ s, is_Some (Sales.transactionid s)) sales →
          2 ≤ Z.of_nat (ActiveDays.active_days row) ≤ Segments.total_orders r).
Proof.
  unfold repeat_customers, active_days_table.
  destruct (dt sales) as [s|] eqn:Hs; [|done]. simpl. intros [= <-].
  apply dt_Some in Hs as ->. split.
  - eapply StronglySorted_sublist; [apply fmap_sublist, sublist_filter|].
    rewrite <- list_fmap_compose.
    rewrite (list_fmap_ext _ fst (groupby Z.le Sales.customerid s))
      by (by intros ? [c g]).
    apply (StronglySorted_weaken (strict Z.le)); [intros x y [Hle Hnle]; lia|].
    apply StronglySorted_strict; [apply _| |apply (groupby_keys_NoDup Z.le)].
    apply groupby_keys_sorted; apply _.
  - intros [c n] [Hn [Hc ->]%elem_of_active_days_table]%list_elem_of_filter.
    simpl in *.
    set (g := filter (λ x, Sales.customerid x = c) (as_cells s)).
    set (k := Z.of_nat (count (Sales.transactionid <$> g))).
    assert ((date_nunique (filter (λ r, Sales.customerid r = c) s) ≤ length g)%nat) as Hle.
    { unfold g. rewrite filter_as_cells. unfold date_nunique.
      etrans; [apply nunique_le_length|]. by rewrite length_fmap. }
    exists (Segments.Row c k (customer_segment k)).
    split_and!; [|done|lia|exact Hle|].
    + apply elem_of_customer_segments. exists g. simpl. split_and!; try done.
      by rewrite as_cells_customerids.
    + intros Hids. simpl. unfold k. rewrite count_Some; [lia|].
      rewrite Forall_forall in Hids. apply Forall_forall.
      intros x [_ Hx]%list_elem_of_filter. by apply Hids.
Qed.

Lemma repeat_customers_have_two_orders_witness :
  repeat_customers march_sales = Some [ActiveDays.Row 7 2] ∧
  Forall (λ s, is_Some (Sales.transactionid s)) march_sales ∧
  ∃ r, r ∈ customer_segments march_sales ∧ Segments.customerid r = 7 ∧
       2 ≤ Z.of_nat 2 ≤ Segments.total_orders r.
Proof.
  assert (repeat_customers march_sales = Some [ActiveDays.Row 7 2]) as Hrc
    by reflexivity.
  assert (Forall (λ s, is_Some (Sales.transactionid s)) march_sales) as Hids
    by (repeat constructor; by eexists).
  split; [exact Hrc|]. split; [exact Hids|].
  destruct (proj2 (repeat_customers_have_two_orders march_sales _ Hrc)
              (ActiveDays.Row 7 2) (list_elem_of_here _ _)) as (r & Hr & Hc & _ & Horders).
  exists r. split; [exact Hr|]. split; [exact Hc|exact (Horders Hids)].
Defined.

(** ** A text column of dates *)

Lemma dt_None sales : ¬ datetime_dtype sales → dt sales = None.
Proof.
  intros Hnot. destruct (dt sales) as [s|] eqn:Hs; [|done].
  destruct Hnot. apply dt_Some in Hs as ->.
  apply Forall_fmap, Forall_forall. intros r _. simpl. eauto.
Qed.

Lemma dt_nil : dt [] = Some [].
Proof. done. Qed.

Lemma to_datetime_is_Some parse sales :
  Forall (λ r, ∀ x, Sales.transactiondate r = Text x → is_Some (parse x)) sales →
  is_Some (to_datetime parse sales).
Proof.
  intros Hparse. apply mapM_is_Some_2.
  eapply Forall_impl; [exact Hparse|].
  intros r Hr. simpl. destruct (Sales.transactiondate r) as [t|x] eqn:Hcell; [by eexists|].
  destruct (Hr x Hcell) as [t ->]. by eexists.
Qed.

(** The script reads [.dt] at line 125, before the conversions of lines
    142 and 155: when some [transactiondate] cell is not a timestamp the
    repeat-customer step raises and the run gives no report, even if
    every text cell parses, in which case the loyalty table and the
    monthly series on their own would have been computed. *)
Theorem text_dates_stop_the_script
    (argsort : list Z → list nat) (parse : string → option Timestamp)
    (sales : list (Sales.row DateCell)) (customers : list Customers.row)
    (inventory : list Inventory.row) (category_filter : list string) :
  ¬ datetime_dtype sales →
  repeat_customers sales = None ∧
  dashboard argsort parse sales customers inventory category_filter = None ∧
  (Forall (λ r, ∀ x, Sales.transactiondate r = Text x → is_Some (parse x)) sales →
   is_Some (loyalty_repeat parse sales) ∧ is_Some (monthly parse sales)).
Proof.
  intros Hnot%dt_None.
  assert (repeat_customers sales = None) as Hrc
    by (unfold repeat_customers, active_days_table; by rewrite Hnot).
  split_and!; [done|unfold dashboard; by rewrite Hrc|].
  intros [s Hs]%(to_datetime_is_Some parse).
  unfold loyalty_repeat, monthly. rewrite Hs. simpl.
  destruct s as [|r s]; [|eauto].
  apply length_mapM in Hs. destruct sales; [|done]. by rewrite dt_nil in Hnot.
Qed.

Lemma text_dates_stop_the_script_witness :
  ¬ datetime_dtype text_sales ∧
  dashboard argsort_insertion parse_any text_sales one_customer one_product ["tools"] = None ∧
  is_Some (monthly parse_any text_sales).
Proof.
  assert (¬ datetime_dtype text_sales) as Hnot.
  { intros H. apply Forall_cons in H as [[t Ht] _]. discriminate Ht. }
  split; [exact Hnot|].
  destruct (text_dates_stop_the_script argsort_insertion parse_any text_sales
              one_customer one_product ["tools"] Hnot) as (_ & Hd & Hconv).
  split; [exact Hd|].
  refine (proj2 (Hconv _)). repeat constructor. intros x _. by eexists.
Defined.

(** ** The monthly series as a whole *)

Lemma nunique_cons_pos {K : Type} `{EqDecision K} (x : K) (l : list K) :
  (1 ≤ nunique (x :: l))%nat.
Proof.
  unfold nunique, unique. cbn [unique_from].
  rewrite decide_False by apply not_elem_of_nil. cbn [length]. lia.
Qed.

(** The monthly series is computed exactly when the sales table has
    rows and its dates convert (on a table without rows the step
    raises); it then names every month once, and has at least one bucket
    and no more buckets than there are sales. *)
Theorem monthly_series_buckets
    (parse : string → option Timestamp) (sales : list (Sales.row DateCell)) :
  monthly parse [] = None ∧
  (is_Some (monthly parse sales) ↔ sales ≠ [] ∧ is_Some (to_datetime parse sales)) ∧
  (∀ t, monthly parse sales = Some t →
     NoDup (Monthly.month <$> t) ∧ (1 ≤ length t ≤ length sales)%nat).
Proof.
  split; [done|]. split.
  - unfold monthly. destruct (to_datetime parse sales) as [s|] eqn:Hs; simpl.
    + apply length_mapM in Hs.
      destruct s as [|r s], sales as [|r' sales]; simplify_eq/=.
      * split; [by intros [??]|by intros [? _]].
      * split; [by intros _; split; [|eexists]|by intros _; eexists].
    + split; [by intros [??]|by intros [_ [??]]].
  - intros t Ht.
    unfold monthly in Ht. destruct (to_datetime parse sales) as [s|] eqn:Hs; [|done].
    assert (Monthly.month <$> t = (groupby String.le month s).*1) as Hmonths
      by (apply (monthly_months parse sales); [done|unfold monthly; by rewrite Hs]).
    simpl in Ht. destruct s as [|r0 s0] eqn:Es; [done|]. rewrite <- Es in *.
    split; [rewrite Hmonths; apply groupby_keys_NoDup|].
    rewrite <- (length_fmap Monthly.month), Hmonths, groupby_keys_perm.
    rewrite (length_mapM _ _ _ Hs). split.
    + rewrite Es, fmap_cons. apply nunique_cons_pos.
    + etrans; [apply nunique_le_length|]. by rewrite length_fmap.
Qed.

Lemma monthly_series_buckets_witness :
  monthly no_parse (march_sales ++ [stray_sale]) =
    Some [Monthly.Row "2024-03" 25; Monthly.Row "2024-04" 8] ∧
  NoDup (Monthly.month <$> [Monthly.Row "2024-03" 25; Monthly.Row "2024-04" 8]) ∧
  (1 ≤ length [Monthly.Row "2024-03" 25; Monthly.Row "2024-04" 8]
     ≤ length (march_sales ++ [stray_sale]))%nat.
Proof.
  assert (monthly no_parse (march_sales ++ [stray_sale]) =
            Some [Monthly.Row "2024-03" 25; Monthly.Row "2024-04" 8]) as Ht
    by reflexivity.
  split; [exact Ht|].
  exact (proj2 (proj2 (monthly_series_buckets no_parse _)) _ Ht).
Defined.

(** ** Sorting without ties *)

Lemma Sorted_fmap_inv {A B : Type} (f : A → B) (R : relation B) (l : list A) :
  Sorted R (f <$> l) → Sorted (λ x y, R (f x) (f y)) l.
Proof.
  induction l as [|x l IH]; [constructor|].
  rewrite fmap_cons. intros [Hl Hhd]%Sorted_inv. constructor; [by apply IH|].
  destruct l; [constructor|]. constructor. by inv Hhd.
Qed.

(** When no two products have the same units sold, the order of the
    sorted product table does not depend on the sorting kernel, and the
    descending order is the ascending order read backwards; so both
    charts are the same for every kernel that meets the contract. *)
Theorem distinct_units_fix_the_order
    (kernel1 kernel2 : list Z → list nat) (rows : list ProductPerf.row) :
  argsort_spec kernel1 → argsort_spec kernel2 →
  NoDup (ProductPerf.total_units_sold <$> rows) →
  sort_values kernel1 true rows = sort_values kernel2 true rows ∧
  sort_values kernel1 false rows = reverse (sort_values kernel2 true rows) ∧
  top10 kernel1 rows = top10 kernel2 rows ∧
  bottom10 kernel1 rows = bottom10 kernel2 rows.
Proof.
  intros H1 H2 Hnd.
  set (by_units := λ a b : ProductPerf.row,
         ProductPerf.total_units_sold a ≤ ProductPerf.total_units_sold b).
  assert (Transitive by_units) as Htrans by (intros a b c; unfold by_units; lia).
  assert (Transitive (flip by_units)) as Htrans' by (intros a b c; unfold flip, by_units; lia).
  assert (∀ a b, a ∈ rows → b ∈ rows → by_units a b → by_units b a → a = b) as Hasym.
  { intros a b Ha Hb Hab Hba.
    apply (NoDup_fmap_eq ProductPerf.total_units_sold rows a b Hnd Ha Hb).
    unfold by_units in *. lia. }
  assert (∀ k b, argsort_spec k → ∀ a, a ∈ sort_values k b rows → a ∈ rows) as Hin.
  { intros k b Hk a. by rewrite (sort_values_Permutation k Hk b rows). }
  assert (∀ k, argsort_spec k → Sorted by_units (sort_values k true rows)) as Hasc.
  { intros k Hk. apply (Sorted_fmap_inv ProductPerf.total_units_sold Z.le).
    by apply sort_values_ascending. }
  assert (∀ k, argsort_spec k → Sorted (flip by_units) (sort_values k false rows)) as Hdesc.
  { intros k Hk. apply (Sorted_fmap_inv ProductPerf.total_units_sold (flip Z.le)).
    by apply sort_values_descending. }
  assert (sort_values kernel1 true rows = sort_values kernel2 true rows) as Eup.
  { apply (Sorted_unique_strong by_units); [|by apply Hasc..|].
    - intros a b Ha%(Hin _ _ H1) Hb%(Hin _ _ H2). by apply Hasym.
    - by rewrite !sort_values_Permutation. }
  assert (∀ k1 k2, argsort_spec k1 → argsort_spec k2 →
            sort_values k1 false rows = reverse (sort_values k2 true rows)) as Edown.
  { intros k1 k2 Hk1 Hk2. apply (Sorted_unique_strong (flip by_units)).
    - intros a b Ha%(Hin _ _ Hk1) Hb. rewrite elem_of_reverse in Hb.
      apply (Hin _ _ Hk2) in Hb. unfold flip. intros Hab Hba. by apply Hasym.
    - by apply Hdesc.
    - apply Sorted_reverse. by apply Hasc.
    - by rewrite reverse_Permutation, !sort_values_Permutation. }
  split_and!; [done|by apply Edown| |by unfold bottom10; rewrite Eup].
  unfold top10. by rewrite (Edown kernel1 kernel2), (Edown kernel2 kernel2).
Qed.

Lemma distinct_units_fix_the_order_witness :
  argsort_spec argsort_insertion ∧ argsort_spec argsort_rev_ties ∧
  NoDup (ProductPerf.total_units_sold <$> three_products) ∧
  top10 argsort_insertion three_products = top10 argsort_rev_ties three_products.
Proof.
  assert (NoDup (ProductPerf.total_units_sold <$> three_products)) as Hnd by compute_done.
  split; [exact argsort_insertion_spec|]. split; [exact argsort_rev_ties_spec|].
  split; [exact Hnd|].
  exact (proj1 (proj2 (proj2 (distinct_units_fix_the_order argsort_insertion argsort_rev_ties
    three_products argsort_insertion_spec argsort_rev_ties_spec Hnd)))).
Defined.

(** ** The database URL *)

Lemma list_ascii_of_string_app (s1 s2 : string) :
  String.list_ascii_of_string (s1 +:+ s2) = String.list_ascii_of_string s1 ++ String.list_ascii_of_string s2.
Proof. induction s1 as [|c s1 IH]; [done|]. simpl. by rewrite IH. Qed.

Lemma quote_byte_alphabet (c : ascii) :
  forallb (λ x, always_safe x || Ascii.eqb x "+" || Ascii.eqb x "%")
    (String.list_ascii_of_string (quote_byte c)) = true.
Proof. destruct c as [[] [] [] [] [] [] [] []]; reflexivity. Qed.

Lemma quote_byte_safe (c : ascii) : always_safe c = true → quote_byte c = String c "".
Proof. unfold quote_byte. by intros ->. Qed.



(** The encoded password consists of always-safe characters, plus signs
    and percent signs only, so it holds none of the marks that delimit
    the parts of the URL; a password of always-safe characters alone is
    left as it is. *)
Theorem quote_plus_alphabet (password : string) :
  (∀ c, c ∈ String.list_ascii_of_string (quote_plus password) →
        (always_safe c = true ∨ c = "+" ∨ c = "%")%char ∧
        c ∉ [":"; "@"; "/"; "?"; "#"; "&"; "="; " "]%char) ∧
  (Forall (λ c, always_safe c = true) (String.list_ascii_of_string password) →
   quote_plus password = password).
Proof.
  split.
  - assert (forallb (λ x, always_safe x || Ascii.eqb x "+" || Ascii.eqb x "%")
              (String.list_ascii_of_string (quote_plus password)) = true) as Hall.
    { induction password as [|c s IH]; [done|]. simpl.
      by rewrite list_ascii_of_string_app, forallb_app, quote_byte_alphabet, IH. }
    intros c Hc%list_elem_of_In.
    rewrite forallb_forall in Hall. specialize (Hall c Hc).
    apply orb_true_iff in Hall as [[Hsafe|Hplus]%orb_true_iff|Hpct].
    + split; [by left|]. intros Hin.
      repeat (apply elem_of_cons in Hin as [->|Hin]; [discriminate Hsafe|]).
      by apply elem_of_nil in Hin.
    + apply Ascii.eqb_eq in Hplus as ->. split; [by right; left|].
      intros Hin.
      repeat (apply elem_of_cons in Hin as [Heq|Hin]; [discriminate Heq|]).
      by apply elem_of_nil in Hin.
    + apply Ascii.eqb_eq in Hpct as ->. split; [by right; right|].
      intros Hin.
      repeat (apply elem_of_cons in Hin as [Heq|Hin]; [discriminate Heq|]).
      by apply elem_of_nil in Hin.
  - induction password as [|c s IH]; [done|]. simpl.
    intros [Hc Hs]%Forall_cons. by rewrite (quote_byte_safe c Hc), IH.
Qed.

Lemma quote_plus_alphabet_witness :
  "%"%char ∈ String.list_ascii_of_string (quote_plus "p@ss w/rd") ∧
  ("%"%char ∉ [":"; "@"; "/"; "?"; "#"; "&"; "="; " "]%char) ∧
  Forall (λ c, always_safe c = true) (String.list_ascii_of_string "retail_2024") ∧
  quote_plus "retail_2024" = "retail_2024".
Proof.
  assert ("%"%char ∈ String.list_ascii_of_string (quote_plus "p@ss w/rd")) as Hin
    by (vm_compute; do 1 apply list_elem_of_further; apply list_elem_of_here).
  assert (Forall (λ c, always_safe c = true) (String.list_ascii_of_string "retail_2024")) as Hsafe
    by (repeat constructor).
  split; [exact Hin|].
  split; [exact (proj2 (proj1 (quote_plus_alphabet "p@ss w/rd") _ Hin))|].
  split; [exact Hsafe|].
  exact (proj2 (quote_plus_alphabet "retail_2024") Hsafe).
Defined.

Lemma unquote_quote_byte (c : ascii) (s : string) :
  unquote_plus (quote_byte c +:+ s) = String c (unquote_plus s).
Proof. destruct c as [[] [] [] [] [] [] [] []]; reflexivity. Qed.

(** Nothing of the password is lost in the URL: reading the escapes back
    gives the password again, so two different passwords never have the
    same encoding. *)
Theorem quote_plus_round_trip :
  (∀ password, unquote_plus (quote_plus password) = password) ∧
  (∀ password1 password2,
     quote_plus password1 = quote_plus password2 → password1 = password2).
Proof.
  assert (∀ password, unquote_plus (quote_plus password) = password) as Hback.
  { induction password as [|c s IH]; [done|].
    simpl. by rewrite unquote_quote_byte, IH. }
  split; [done|].
  intros p1 p2 Heq. by rewrite <- (Hback p1), <- (Hback p2), Heq.
Qed.

Lemma quote_plus_round_trip_witness :
  quote_plus "p@ss w/rd" = "p%40ss+w%2Frd" ∧
  quote_plus "p@ss w/rd" = quote_plus (unquote_plus "p%40ss+w%2Frd") ∧
  "p@ss w/rd" = unquote_plus "p%40ss+w%2Frd".
Proof.
  assert (quote_plus "p@ss w/rd" = quote_plus (unquote_plus "p%40ss+w%2Frd")) as Heq
    by reflexivity.
  split; [reflexivity|]. split; [exact Heq|].
  exact (proj2 quote_plus_round_trip _ _ Heq).
Defined.

(** ** The order of the rows that the database returns *)

Lemma unique_Permutation {K : Type} `{EqDecision K} (l l' : list K) :
  l ≡ₚ l' → unique l ≡ₚ unique l'.
Proof.
  intros Hl. apply NoDup_Permutation; [apply NoDup_unique..|].
  intros x. by rewrite !elem_of_unique, Hl.
Qed.

Lemma nunique_Permutation {K : Type} `{EqDecision K} (l l' : list K) :
  l ≡ₚ l' → nunique l = nunique l'.
Proof. intros Hl. unfold nunique. by rewrite (unique_Permutation l l' Hl). Qed.

Lemma bind_Permutation_ext {A B : Type} (f f' : A → list B) (l l' : list A) :
  (∀ x, f x ≡ₚ f' x) → l ≡ₚ l' → l ≫= f ≡ₚ l' ≫= f'.
Proof.
  intros Hf Hl. rewrite <- Hl. clear l' Hl.
  induction l as [|x l IH]; [done|]. by rewrite !bind_cons, Hf, IH.
Qed.

(** The join of permuted tables is a permutation of the join. *)
Lemma joined_Permutation sales sales' customers customers' inventory inventory' :
  sales ≡ₚ sales' → customers ≡ₚ customers' → inventory ≡ₚ inventory' →
  joined sales customers inventory ≡ₚ joined sales' customers' inventory'.
Proof.
  intros Hs Hc Hi.
  assert (∀ l : list (Sales.row DateCell),
            joined l customers inventory = l ≫= λ s, joined [s] customers inventory) as Hbind.
  { intros l. induction l as [|s l IH]; [done|].
    change (s :: l) with ([s] ++ l) at 1. by rewrite joined_app, IH, bind_cons. }
  assert (∀ l : list (Sales.row DateCell),
            joined l customers' inventory' = l ≫= λ s, joined [s] customers' inventory') as Hbind'.
  { intros l. induction l as [|s l IH]; [done|].
    change (s :: l) with ([s] ++ l) at 1. by rewrite joined_app, IH, bind_cons. }
  rewrite Hbind, Hbind'. apply bind_Permutation_ext; [|done].
  intros s. rewrite !joined_single.
  apply bind_Permutation_ext; [|by rewrite Hi].
  intros p. by rewrite Hc.
Qed.

Section groupby_Permutation.
Context {A B K : Type} `{EqDecision K}.
Context (le : relation K) `{∀ x y, Decision (le x y)}.
Context `{!Transitive le, !Total le, !AntiSymm (=) le}.
Context (key : A → K) (agg : K → list A → B).
Hypothesis agg_Permutation : ∀ k g g', g ≡ₚ g' → agg k g = agg k g'.

(** An aggregate that does not look at the order of a group gives the
    same table for permuted rows. *)
Lemma groupby_agg_Permutation (rows rows' : list A) :
  rows ≡ₚ rows' →
  (λ kg, agg kg.1 kg.2) <$> groupby le key rows =
  (λ kg, agg kg.1 kg.2) <$> groupby le key rows'.
Proof.
  intros Hrows. unfold groupby. rewrite <- !list_fmap_compose.
  assert (merge_sort le (unique (key <$> rows)) =
          merge_sort le (unique (key <$> rows'))) as ->.
  { apply (Sorted_unique le); [by apply Sorted_merge_sort..|].
    rewrite !merge_sort_Permutation. apply unique_Permutation. by rewrite Hrows. }
  apply list_fmap_ext. intros _ k _. simpl.
  apply agg_Permutation. by rewrite Hrows.
Qed.
End groupby_Permutation.

Lemma mapM_Permutation {A B : Type} (f : A → option B) (l l' : list A) (k : list B) :
  l ≡ₚ l' → mapM f l = Some k → ∃ k', mapM f l' = Some k' ∧ k ≡ₚ k'.
Proof.
  intros Hl. revert k.
  induction Hl as [|x l l' _ IH|x y l|l1 l2 l3 _ IH1 _ IH2]; intros k Hk.
  - by exists k.
  - apply mapM_Some in Hk.
    apply Forall2_cons_inv_l in Hk as (b & k0 & Hx & Hk0%mapM_Some & ->).
    destruct (IH k0 Hk0) as (k' & Hk'%mapM_Some & Hperm).
    exists (b :: k'). split; [apply mapM_Some; by constructor|by constructor].
  - apply mapM_Some in Hk.
    apply Forall2_cons_inv_l in Hk as (b & k1 & Hy & Hk1 & ->).
    apply Forall2_cons_inv_l in Hk1 as (a & k0 & Hx & Hk0 & ->).
    exists (a :: b :: k0). split; [apply mapM_Some; by repeat constructor|].
    apply Permutation_swap.
  - destruct (IH1 k Hk) as (k2 & Hk2 & Hp2).
    destruct (IH2 k2 Hk2) as (k3 & Hk3 & Hp3).
    exists k3. split; [done|]. by etrans.
Qed.

Lemma mapM_Permutation_None {A B : Type} (f : A → option B) (l l' : list A) :
  l ≡ₚ l' → mapM f l = None → mapM f l' = None.
Proof.
  intros Hl Hnone. destruct (mapM f l') as [k'|] eqn:Hk'; [|done].
  symmetry in Hl. destruct (mapM_Permutation f l' l k' Hl Hk') as (k & Hk & _).
  congruence.
Qed.

Lemma mapM_bind_Permutation {A B C : Type} (f : A → option B) (F : list B → C)
    (l l' : list A) :
  l ≡ₚ l' → (∀ k k', k ≡ₚ k' → F k = F k') →
  (k ← mapM f l; Some (F k)) = (k ← mapM f l'; Some (F k)).
Proof.
  intros Hl HF. destruct (mapM f l) as [k|] eqn:Hk.
  - destruct (mapM_Permutation f l l' k Hl Hk) as (k' & -> & Hperm).
    simpl. f_equal. by apply HF.
  - by rewrite (mapM_Permutation_None f l l' Hl Hk).
Qed.

(** Brings a goal between two group-by tables to the aggregate [agg]. *)
Local Ltac by_groups agg :=
  lazymatch goal with
  | |- _ <$> groupby ?le ?key ?rows = _ <$> groupby _ _ ?rows' =>
      transitivity ((λ kg, agg kg.1 kg.2) <$> groupby le key rows);
        [apply list_fmap_ext; by intros _ [? ?] _|];
      transitivity ((λ kg, agg kg.1 kg.2) <$> groupby le key rows');
        [|apply list_fmap_ext; by intros _ [? ?] _];
      apply (groupby_agg_Permutation le key agg)
  end.

(** The script reads its tables with [SELECT *], in whatever order the
    database returns the rows.  That order does not matter to what the
    script counts or names: permuting the rows of the three tables
    leaves the order and customer KPIs, the names of the product table,
    the segmentation, the repeat customers, the loyalty table and the
    months of the monthly series unchanged. *)
Theorem row_order_irrelevant
    (parse : string → option Timestamp)
    (sales sales' : list (Sales.row DateCell))
    (customers customers' : list Customers.row)
    (inventory inventory' : list Inventory.row) (category_filter : list string) :
  sales ≡ₚ sales' → customers ≡ₚ customers' → inventory ≡ₚ inventory' →
  total_orders sales customers inventory category_filter =
    total_orders sales' customers' inventory' category_filter ∧
  total_customers sales customers inventory category_filter =
    total_customers sales' customers' inventory' category_filter ∧
  ProductPerf.productname <$> product_perf (merged sales customers inventory category_filter) =
    ProductPerf.productname
      <$> product_perf (merged sales' customers' inventory' category_filter) ∧
  customer_segments sales = customer_segments sales' ∧
  repeat_customers sales = repeat_customers sales' ∧
  loyalty_repeat parse sales = loyalty_repeat parse sales' ∧
  (λ t : list Monthly.row, Monthly.month <$> t) <$> monthly parse sales =
    (λ t : list Monthly.row, Monthly.month <$> t) <$> monthly parse sales'.
Proof.
  intros Hs Hc Hi.
  assert (merged sales customers inventory category_filter ≡ₚ
          merged sales' customers' inventory' category_filter) as Hm.
  { unfold merged. by rewrite (joined_Permutation _ _ _ _ _ _ Hs Hc Hi). }
  assert (∀ {A K : Type} (f : A → option K) (g g' : list A),
            g ≡ₚ g' → count (f <$> g) = count (f <$> g')) as Hcount.
  { intros A K f g g' Hg. unfold count, dropna. by rewrite Hg. }
  split_and!.
  - unfold total_orders, dropna. apply nunique_Permutation. by rewrite Hm.
  - unfold total_customers. apply nunique_Permutation. by rewrite Hm.
  - unfold product_perf. rewrite <- !list_fmap_compose.
    set (agg := λ (name : string) (g : list Merged.row), name).
    by_groups agg.
    + done.
    + exact Hm.
  - unfold customer_segments.
    set (agg := λ (c : Z) (g : list (Sales.row DateCell)),
      {| Segments.customerid := c;
         Segments.total_orders := Z.of_nat (count (Sales.transactionid <$> g));
         Segments.customer_segment :=
           customer_segment (Z.of_nat (count (Sales.transactionid <$> g))) |}).
    by_groups agg.
    + intros k g g' Hg. unfold agg. by rewrite (Hcount _ _ _ g g' Hg).
    + exact Hs.
  - unfold repeat_customers.
    assert (active_days_table sales = active_days_table sales') as ->; [|done].
    unfold active_days_table, dt. apply mapM_bind_Permutation; [done|].
    intros k k' Hk.
    set (agg := λ (c : Z) (g : list (Sales.row Timestamp)),
      {| ActiveDays.customerid := c; ActiveDays.active_days := date_nunique g |}).
    by_groups agg.
    + intros c g g' Hg. unfold agg, date_nunique. f_equal.
      apply nunique_Permutation. by rewrite Hg.
    + exact Hk.
  - unfold loyalty_repeat, to_datetime. apply mapM_bind_Permutation; [done|].
    intros k k' Hk.
    set (agg := λ (c : Z) (g : list (Sales.row Timestamp)),
      {| Loyalty.customerid := c; Loyalty.days_active := date_nunique g;
         Loyalty.total_orders := count (Sales.transactionid <$> g) |}).
    by_groups agg.
    + intros c g g' Hg. unfold agg, date_nunique. f_equal; [|by apply Hcount].
      apply nunique_Permutation. by rewrite Hg.
    + exact Hk.
  - unfold monthly, to_datetime.
    set (f := λ s : Sales.row DateCell, _).
    destruct (mapM f sales) as [k|] eqn:Hk.
    + destruct (mapM_Permutation f sales sales' k Hs Hk) as (k' & -> & Hperm). simpl.
      destruct k as [|r k], k' as [|r' k'];
        [done|by apply Permutation_nil_cons in Hperm
             |by symmetry in Hperm; apply Permutation_nil_cons in Hperm|].
      simpl. f_equal. rewrite <- !list_fmap_compose.
      set (agg := λ (b : string) (g : list (Sales.row Timestamp)), b).
      by_groups agg.
      * done.
      * exact Hperm.
    + by rewrite (mapM_Permutation_None f sales sales' Hs Hk).
Qed.

Lemma row_order_irrelevant_witness :
  march_sales ≡ₚ reverse march_sales ∧
  customer_segments march_sales = customer_segments (reverse march_sales) ∧
  total_orders march_sales one_customer one_product ["tools"] =
    total_orders (reverse march_sales) one_customer one_product ["tools"].
Proof.
  assert (march_sales ≡ₚ reverse march_sales) as Hs
    by (symmetry; apply reverse_Permutation).
  split; [exact Hs|].
  destruct (row_order_irrelevant no_parse march_sales (reverse march_sales)
              one_customer one_customer one_product one_product ["tools"]
              Hs (reflexivity _) (reflexivity _))
    as (Horders & _ & _ & Hsegments & _).
  split; [exact Hsegments|exact Horders].
Defined.

(** ** The rows of the merged table *)

(** The merged table holds exactly the rows built from a sale, a product
    of the inventory with the sale's [productid] and a selected
    category, and a customer with the sale's [customerid]; such a row
    carries the sale's price as [price_x] and the product's price as
    [price_y]. *)
Theorem merged_rows_exactly
    (sales : list (Sales.row DateCell)) (customers : list Customers.row)
    (inventory : list Inventory.row) (category_filter : list string)
    (m : Merged.row) :
  m ∈ merged sales customers inventory category_filter ↔
  ∃ s p c,
    s ∈ sales ∧ p ∈ inventory ∧ c ∈ customers ∧
    Inventory.productid p = Sales.productid s ∧
    Customers.customerid c = Sales.customerid s ∧
    Inventory.category p ∈ category_filter ∧
    m = with_customer (with_inventory s p) c ∧
    Merged.transactionid m = Sales.transactionid s ∧
    Merged.quantitypurchased m = Sales.quantitypurchased s ∧
    Merged.price_x m = Sales.price s ∧
    Merged.price_y m = Inventory.price p ∧
    Merged.productname m = Inventory.productname p ∧
    Merged.age m = Customers.age c.
Proof.
  unfold merged. rewrite list_elem_of_filter, elem_of_joined. split.
  - intros (Hcat & s & p & c & Hs & Hp & Hc & Hkp & Hkc & ->).
    exists s, p, c. by split_and!.
  - intros (s & p & c & Hs & Hp & Hc & Hkp & Hkc & Hcat & -> & _).
    split; [done|]. by exists s, p, c.
Qed.
